(** * textutils.py: paragraph filling, line justification and table layout

    A shallow embedding of [TODO/srinath-files/python/textutils.py]
    (Python 2) and the properties of its functions [JustifyLine],
    [FillParagraphs], [IndentParagraphs], [OffsetText], [FormatTable] and
    [VertCatString].

    Conventions of the embedding:
    - a Python 2 [str] is a list of 8-bit characters ([list ascii]);
    - Python integers are [Z]; list lengths and indices are [nat];
    - the dictionary [maxlengths] of [FormatTable] is a [gmap nat Z];
    - the module-global generator behind [random.shuffle] is an abstract
      state that every function using it receives and returns;
    - a [while 1:] loop is a step function iterated under a fuel bound;
      each theorem that speaks of a result shows the fuel is enough. *)

From Stdlib Require Import ZArith Lia Ascii String.
From stdpp Require Import base option list gmap.

Local Open Scope string_scope.
Local Open Scope list_scope.
Local Open Scope stdpp_scope.
Local Open Scope Z_scope.

(** ** Python values *)

Abbreviation str := (list ascii).

(** String literals are written [str_of "abc"]. *)
Definition str_of (s : string) : str := list_ascii_of_string s.

Definition NL : ascii := "010"%char.
Definition SP : ascii := " "%char.

(** [len(s)] as a Python integer. *)
Definition len {A} (l : list A) : Z := Z.of_nat (length l).

(** [c * n] for a one-character string [c]: empty when [n <= 0]. *)
Definition repeat_char (c : ascii) (n : Z) : str := replicate (Z.to_nat n) c.

Definition is_nl (c : ascii) : bool := bool_decide (c = NL).

(** The characters [str.isspace] accepts in the C locale: tab, newline,
    vertical tab, form feed, carriage return and space. *)
Definition is_space (c : ascii) : bool :=
  let n := nat_of_ascii c in
  ((9 <=? n)%nat && (n <=? 13)%nat) || (n =? 32)%nat.

(** [sep.join(l)] *)
Fixpoint join (sep : str) (l : list str) : str :=
  match l with
  | [] => []
  | [x] => x
  | x :: r => x ++ sep ++ join sep r
  end.

(** [s.split("\n")]: never empty, [""] splits to [[""]]. *)
Fixpoint split_nl (s : str) : list str :=
  match s with
  | [] => [[]]
  | c :: s' =>
      if is_nl c then [] :: split_nl s'
      else match split_nl s' with
           | l :: r => (c :: l) :: r
           | [] => [[c]]
           end
  end.

(** [s.strip()] *)
Fixpoint lstrip (s : str) : str :=
  match s with
  | c :: s' => if is_space c then lstrip s' else s
  | [] => []
  end.

Definition strip (s : str) : str := rev (lstrip (rev (lstrip s))).

(** [s.split()]: the maximal runs of non-space characters; [cur] is the
    word being read. *)
Fixpoint split_ws_from (cur : str) (s : str) : list str :=
  match s with
  | [] => match cur with [] => [] | _ => [cur] end
  | c :: s' =>
      if is_space c
      then match cur with
           | [] => split_ws_from [] s'
           | _ => cur :: split_ws_from [] s'
           end
      else split_ws_from (cur ++ [c]) s'
  end.

Definition split_ws (s : str) : list str := split_ws_from [] s.

(** [re.split(r'\n\n+', s)]: a match is a maximal run of two or more
    newlines. [cur] is the piece being read; [in_sep] says that the
    previous character closed a match, which a further newline extends. *)
Fixpoint re_split_from (cur : str) (in_sep : bool) (s : str) : list str :=
  match s with
  | [] => [cur]
  | c :: s' =>
      if in_sep && is_nl c then re_split_from cur true s'
      else if is_nl c
      then match s' with
           | c' :: s'' =>
               if is_nl c' then cur :: re_split_from [] true s''
               else re_split_from (cur ++ [c]) false s'
           | [] => re_split_from (cur ++ [c]) false s'
           end
      else re_split_from (cur ++ [c]) false s'
  end.

Definition re_split_blank (s : str) : list str := re_split_from [] false s.

(** [re.sub(r"\n+$", "", s)]: the trailing newlines go. *)
Fixpoint drop_nl (s : str) : str :=
  match s with
  | c :: s' => if is_nl c then drop_nl s' else s
  | [] => []
  end.

Definition rstrip_nl (s : str) : str := rev (drop_nl (rev s)).

(** [re.sub(r"\s+$", '', s)]: the trailing space characters go. *)
Definition rstrip_ws (s : str) : str := rev (lstrip (rev s)).

(** [pad] put after every newline of [s]. *)
Fixpoint after_newlines (pad : str) (s : str) : str :=
  match s with
  | [] => []
  | c :: s' =>
      if is_nl c then c :: pad ++ after_newlines pad s'
      else c :: after_newlines pad s'
  end.

(** [re.sub(r"^|\n", "\g<0>" + pad, s)]: [^] matches the empty string at
    the start, every newline matches itself, and each match is replaced
    by itself followed by [pad]. In Python 2 the search that follows an
    empty match resumes one character further on, so the first character
    of [s] is copied as it is, also when it is a newline. *)
Definition re_sub_line_starts (pad : str) (s : str) : str :=
  pad ++ match s with
         | [] => []
         | c :: s' => c :: after_newlines pad s'
         end.

(** Test data: a text given by its lines. *)
Definition text_of (ls : list string) : str := join [NL] (map str_of ls).

(** ** Exceptions and loops *)

(** The built-in exceptions the code can raise. *)
Inductive exn := IndexError | KeyError.

(** What a call does: it returns, it raises, or the model's fuel ran out
    before the loop ended. *)
Inductive outcome (A : Type) :=
  | Done (a : A)
  | Raised (e : exn)
  | OutOfFuel.
Arguments Done {A} a.
Arguments Raised {A} e.
Arguments OutOfFuel {A}.

(** Sequencing: a raised exception (or exhausted fuel) ends the call. *)
#[global] Instance outcome_bind : MBind outcome := fun A B k o =>
  match o with
  | Done a => k a
  | Raised e => Raised e
  | OutOfFuel => OutOfFuel
  end.

(** [l[i]] and [d[k]] *)
Definition index {A} (l : list A) (i : nat) : outcome A :=
  match l !! i with Some x => Done x | None => Raised IndexError end.

Definition getitem (d : gmap nat Z) (k : nat) : outcome Z :=
  match d !! k with Some x => Done x | None => Raised KeyError end.

(** A [for] loop whose body may raise, threading the loop's variables. *)
Fixpoint for_each {A S} (body : S -> A -> outcome S) (l : list A) (s : S)
  : outcome S :=
  match l with
  | [] => Done s
  | a :: r => s' ← body s a; for_each body r s'
  end.

(** One iteration of a [while 1:] loop either goes round again with new
    values of the variables or leaves the loop. *)
Inductive iter (S R : Type) :=
  | Again (s : S)
  | Leave (o : outcome R).
Arguments Again {S R} s.
Arguments Leave {S R} o.

Fixpoint while1 {S R} (body : S -> iter S R) (fuel : nat) (s : S) : outcome R :=
  match fuel with
  | O => OutOfFuel
  | Datatypes.S n =>
      match body s with
      | Again s' => while1 body n s'
      | Leave o => o
      end
  end.

(** ** The functions of textutils.py *)

Section Textutils.

(** [random.shuffle] works on the module's hidden generator: [G] is the
    generator's state, [shuffle g l] the shuffled list and the state after. *)
Variable G : Type.
Variable shuffle : G -> list nat -> list nat * G.

(** *** JustifyLine *)

(** The variables of the loop: [line], the index list [i], the generator. *)
Definition JustifyLine_body (width : Z) (st : list str * list nat * G)
  : iter (list str * list nat * G) (str * G) :=
  let '(line, i, g) := st in
  if len (join [SP] line) <? width then
    let '(i, g) :=
      match i with
      | [] => shuffle g (seq 0 (Nat.max 1 (length line - 1)))
      | _ => (i, g)
      end in
    match i with
    | [] => Leave (Raised IndexError)          (* pop from empty list *)
    | k :: i =>
        match line !! k with
        | None => Leave (Raised IndexError)    (* line[k] out of range *)
        | Some w => Again (<[k := w ++ [SP]]> line, i, g)
        end
    end
  else Leave (Done (join [SP] line, g)).

(** The loop adds one character per round, so the missing width bounds
    the number of rounds. *)
Definition JustifyLine_fuel (line : list str) (width : Z) : nat :=
  Datatypes.S (Z.to_nat (width - len (join [SP] line))).

Definition JustifyLine (line : list str) (width : Z) (g : G) : outcome (str * G) :=
  while1 (JustifyLine_body width) (JustifyLine_fuel line width) (line, [], g).

(** *** FillParagraphs *)

(** The variables of the inner loop: [words], [line], [new_par] and the
    generator. *)
Definition fill_body (width : Z) (justify : bool)
    (st : list str * list str * list str * G)
  : iter (list str * list str * list str * G) (list str * G) :=
  let '(words, line, new_par, g) := st in
  match words with
  | w :: ws =>
      if (width <? len (join [SP] (line ++ [w]))) && bool_decide (line <> [])
      then
        if justify then
          match JustifyLine line width g with
          | Done (l, g) => Again (words, [], new_par ++ [l], g)
          | Raised e => Leave (Raised e)
          | OutOfFuel => Leave OutOfFuel
          end
        else Again (words, [], new_par ++ [join [SP] line], g)
      else Again (ws, line ++ [w], new_par, g)
  | [] => Leave (Done (new_par ++ [join [SP] line], g))
  end.

(** Every word costs at most two rounds (close the line, then append). *)
Definition fill_fuel (words : list str) : nat :=
  Datatypes.S (2 * length words).

(** The lines [new_par] of one paragraph. *)
Definition fill_paragraph (width : Z) (justify : bool) (paragraph : str) (g : G)
  : outcome (list str * G) :=
  let words := split_ws (strip paragraph) in
  while1 (fill_body width justify) (fill_fuel words) (words, [], [], g).

(** The outer loop: each paragraph in turn, the generator handed on. *)
Fixpoint fill_each (width : Z) (justify : bool) (paragraphs : list str) (g : G)
  : outcome (list (list str) * G) :=
  match paragraphs with
  | [] => Done ([], g)
  | p :: ps =>
      '(new_par, g) ← fill_paragraph width justify p g;
      '(rest, g) ← fill_each width justify ps g;
      Done (new_par :: rest, g)
  end.

(** The lines of every paragraph of [text], before they are joined. *)
Definition fill_lines (text : str) (width : Z) (justify : bool) (g : G)
  : outcome (list (list str) * G) :=
  fill_each width justify (re_split_blank text) g.

Definition FillParagraphs (text : str) (width : Z) (justify : bool) (g : G)
  : outcome (str * G) :=
  '(pars, g) ← fill_lines text width justify g;
  Done (join [NL; NL] (map (join [NL]) pars), g).

(** *** VertCatString *)

(** The width of a block when [width1] is [None]. *)
Definition block_width (lines1 : list str) : Z :=
  foldl (fun width1 line => Z.max width1 (len line)) (-1) lines1.

(** Round [i] of the loop on [lines1], [lines2] and [retlines]. *)
Definition vcat_body (width1 : Z) (st : list str * list str * list str) (i : nat)
  : outcome (list str * list str * list str) :=
  let '(lines1, lines2, retlines) := st in
  let lines1 :=
    if bool_decide (length lines1 <= i)%nat
    then lines1 ++ [repeat_char SP width1] else lines1 in
  l1 ← index lines1 i;
  let lines1 := <[i := l1 ++ repeat_char SP (width1 - len l1)]> lines1 in
  let lines2 :=
    if bool_decide (length lines2 <= i)%nat then lines2 ++ [[]] else lines2 in
  l1 ← index lines1 i;
  l2 ← index lines2 i;
  Done (lines1, lines2, retlines ++ [l1 ++ l2]).

Definition VertCatString (string1 : str) (width1 : option Z) (string2 : str)
  : outcome str :=
  let lines1 := split_nl string1 in
  let lines2 := split_nl string2 in
  let width1 := default (block_width lines1) width1 in
  '(_, _, retlines) ←
    for_each (vcat_body width1)
             (seq 0 (Nat.max (length lines1) (length lines2)))
             (lines1, lines2, []);
  Done (join [NL] retlines).

(** *** FormatTable *)

(** [for i in range(len(lengths))] of the first loop, from index [i] on. *)
Fixpoint record_lengths (i : nat) (lengths : list Z) (maxlengths : gmap nat Z)
  : gmap nat Z :=
  match lengths with
  | [] => maxlengths
  | l :: ls =>
      record_lengths (S i) ls
        (<[i := Z.max l (default (-1) (maxlengths !! i))]> maxlengths)
  end.

Definition max_lengths (tableText : list (list str)) : gmap nat Z :=
  foldl (fun maxlengths row => record_lengths 0 (map len row) maxlengths)
        ∅ tableText.

(** The second loop: truncate to the maximum allowed. *)
Definition cap_lengths (COL_WIDTH : Z) (maxlengths : gmap nat Z)
  : outcome (gmap nat Z) :=
  for_each (fun maxlengths i =>
              v ← getitem maxlengths i;
              Done (<[i := Z.min v COL_WIDTH]> maxlengths))
           (seq 0 (size maxlengths)) maxlengths.

(** [map(FillParagraphs, row, [COL_WIDTH]*len(row))]: the call leaves
    [justify] at its default, 0. *)
Fixpoint fill_row (COL_WIDTH : Z) (row : list str) (g : G)
  : outcome (list str * G) :=
  match row with
  | [] => Done ([], g)
  | cell :: cells =>
      '(c, g) ← FillParagraphs cell COL_WIDTH false g;
      '(cs, g) ← fill_row COL_WIDTH cells g;
      Done (c :: cs, g)
  end.

Fixpoint fill_table (COL_WIDTH : Z) (tableText : list (list str)) (g : G)
  : outcome (list (list str) * G) :=
  match tableText with
  | [] => Done ([], g)
  | row :: rows =>
      '(r, g) ← fill_row COL_WIDTH row g;
      '(rs, g) ← fill_table COL_WIDTH rows g;
      Done (r :: rs, g)
  end.

(** The body of [for i in range(1, len(row))]: the spacer, then cell [i]. *)
Definition add_column (maxlengths : gmap nat Z) (COL_SPACE : Z) (row : list str)
    (st : str * Z) (i : nat) : outcome (str * Z) :=
  let '(rowtext, width) := st in
  rowtext ← VertCatString rowtext (Some width) (repeat_char SP COL_SPACE);
  cell ← index row i;
  rowtext ← VertCatString rowtext (Some (width + COL_SPACE)) cell;
  m ← getitem maxlengths i;
  Done (rowtext, width + COL_SPACE + m).

(** The text of one row: the body of the last loop up to [string.join],
    which on a [str] gives the same [str] back. *)
Definition format_row (maxlengths : gmap nat Z) (COL_SPACE : Z) (row : list str)
  : outcome str :=
  rowtext ← index row 0;
  width ← getitem maxlengths 0;
  '(rowtext, width) ←
    for_each (add_column maxlengths COL_SPACE row)
             (seq 1 (length row - 1)) (rowtext, width);
  Done rowtext.

Definition FormatTable (tableText : list (list str))
    (ROW_SPACE COL_SPACE COL_WIDTH TABLE_WIDTH : Z) (justify : bool) (g : G)
  : outcome (str * G) :=
  maxlengths ← cap_lengths COL_WIDTH (max_lengths tableText);
  '(formattedTable, g) ←
    (if justify then fill_table COL_WIDTH tableText g
     else Done (tableText, g));
  retTableText ←
    for_each (fun retTableText row =>
                rowtext ← format_row maxlengths COL_SPACE row;
                Done (retTableText ++ rowtext ++ repeat_char NL ROW_SPACE))
             formattedTable [];
  Done (rstrip_nl retTableText, g).

(** *** IndentParagraphs and OffsetText *)

Definition IndentParagraphs (text : str) (width indent : Z) (justify : bool) (g : G)
  : outcome (str * G) :=
  '(filled, g) ← FillParagraphs text width justify g;
  let retText := re_sub_line_starts (repeat_char SP indent) filled in
  let retText := rstrip_ws retText in
  Done (retText, g).

Definition OffsetText (text : str) (indent : Z) : str :=
  re_sub_line_starts (repeat_char SP indent) text.

End Textutils.

(** A generator for running the functions: its shuffle reverses. *)
Definition rev_shuffle (g : unit) (l : list nat) : list nat * unit := (rev l, g).


(** ** Vocabulary of the properties *)

(** A word as [str.split] yields it: not empty, no space character. *)
Definition is_word (w : str) : bool :=
  bool_decide (w <> []) && forallb (fun c => negb (is_space c)) w.

(** A paragraph without a word. *)
Definition is_blank (p : str) : bool := forallb is_space p.

(** A line of text: not empty, no newline in it. *)
Definition is_solid (l : str) : bool :=
  bool_decide (l <> []) && forallb (fun c => negb (is_nl c)) l.

(** [line'] is [line] with spaces appended to some of its words. *)
Definition stretched (line line' : list str) : Prop :=
  Forall2 (fun w w' => exists n : nat, w' = w ++ replicate n SP) line line'.

(** The lines the greedy loop of [FillParagraphs] forms, as groups of
    words: [line] is the group under construction. *)
Fixpoint break_lines (width : Z) (line words : list str) : list (list str) :=
  match words with
  | [] => [line]
  | w :: ws =>
      if (width <? len (join [SP] (line ++ [w]))) && bool_decide (line <> [])
      then line :: break_lines width [w] ws
      else break_lines width (line ++ [w]) ws
  end.

(** How groups of words appear as the lines of a justified paragraph:
    the last group is joined by single spaces; every other group is
    stretched to [width] when it is shorter. *)
Inductive justified (width : Z) : list (list str) -> list str -> Prop :=
  | justified_last grp : justified width [grp] [join [SP] grp]
  | justified_cons grp line' groups ls :
      grp <> [] ->
      stretched grp line' ->
      len (join [SP] line') = Z.max width (len (join [SP] grp)) ->
      justified width groups ls ->
      justified width (grp :: groups) (join [SP] line' :: ls).

(** A group never holds two or more words that overflow together. *)
Definition group_fits (width : Z) (grp : list str) : Prop :=
  grp = [] \/ (exists w, grp = [w]) \/ len (join [SP] grp) <= width.

(** The words of a paragraph and the groups the loop breaks them into. *)
Definition words_of (paragraph : str) : list str := split_ws (strip paragraph).

Definition groups_of (width : Z) (paragraph : str) : list (list str) :=
  break_lines width [] (words_of paragraph).

(** The lines of a whole text: those of its paragraphs, an empty line
    between two paragraphs. *)
Fixpoint text_lines (pars : list (list str)) : list str :=
  match pars with
  | [] => [[]]
  | [ls] => ls
  | ls :: r => ls ++ [] :: text_lines r
  end.

(** A paragraph set one word to a line; without a word, one empty line. *)
Definition one_per_line (words : list str) : list str :=
  match words with
  | [] => [[]]
  | _ => words
  end.

(** What [FillParagraphs] returns with [justify] off. *)
Definition fill_plain (text : str) (width : Z) : str :=
  join [NL; NL]
    (map (fun p => join [NL] (map (join [SP]) (groups_of width p)))
         (re_split_blank text)).

(** The keys of a dictionary used like an array: 0 to [n - 1]. *)
Definition contiguous (d : gmap nat Z) (n : nat) : Prop :=
  forall i, is_Some (d !! i) <-> (i < n)%nat.

(** A row without a cell. *)
Definition is_empty_row (row : list str) : bool := bool_decide (row = []).

(** The lines of a filled paragraph: one empty line when the paragraph
    had no word, else lines that are not empty and hold no newline. *)
Definition par_lines_ok (ls : list str) : Prop :=
  ls = [[]] \/ (ls <> [] /\ Forall (fun l => is_solid l = true) ls).

(** The lines a paragraph is filled to: an empty line for a paragraph
    without a word, else proper lines. *)
Definition lines_match (paragraph : str) (ls : list str) : Prop :=
  if is_blank paragraph then ls = [[]]
  else ls <> [] /\ Forall (fun l => is_solid l = true) ls.

(** What splitting a filled text finds after a separator: a paragraph
    without a line, unless it is the last, has vanished, because the
    separators around it ran together. *)
Fixpoint squeeze (pars : list (list str)) : list (list str) :=
  match pars with
  | [] => []
  | [ls] => [ls]
  | ls :: r => if bool_decide (ls = [[]]) then squeeze r else ls :: squeeze r
  end.

(** Line [i] of two blocks set side by side: the left line, or as many
    spaces as the column is wide when the left block has ended, padded to
    the width, then the right line if there is one. *)
Definition vcat_line (width1 : Z) (lines1 lines2 : list str) (i : nat) : str :=
  let l1 := default (repeat_char SP width1) (lines1 !! i) in
  let l1 := l1 ++ repeat_char SP (width1 - len l1) in
  let l2 := default [] (lines2 !! i) in
  l1 ++ l2.

(** What [VertCatString] returns. *)
Definition vcat (string1 : str) (width1 : option Z) (string2 : str) : str :=
  let lines1 := split_nl string1 in
  let lines2 := split_nl string2 in
  let width1 := default (block_width lines1) width1 in
  join [NL]
    (map (vcat_line width1 lines1 lines2)
         (seq 0 (Nat.max (length lines1) (length lines2)))).

(** The length of the longest cell among the [i]-th cells of the rows,
    taken row after row from [a]; [None] when no row has an [i]-th cell. *)
Definition column_width_from (a : option Z) (tableText : list (list str)) (i : nat)
  : option Z :=
  foldl (fun m row =>
           match row !! i with
           | Some cell => Some (Z.max (len cell) (default (-1) m))
           | None => m
           end) a tableText.

Definition column_width (tableText : list (list str)) (i : nat) : option Z :=
  column_width_from None tableText i.

(** A row set in columns: every cell but the last padded with spaces to
    the width of its column and followed by [COL_SPACE] spaces; [i] is
    the column of the first cell. *)
Fixpoint render_row (widths : nat -> Z) (COL_SPACE : Z) (i : nat) (cells : list str)
  : str :=
  match cells with
  | [] => []
  | [cell] => cell
  | cell :: r =>
      cell ++ repeat_char SP (widths i - len cell) ++ repeat_char SP COL_SPACE
           ++ render_row widths COL_SPACE (S i) r
  end.

(** The column at which cell [k] of a row starts: the widths of the
    columns before it, each followed by [COL_SPACE] spaces. *)
Fixpoint column_offset (widths : nat -> Z) (COL_SPACE : Z) (k : nat) : Z :=
  match k with
  | O => 0
  | S k' => column_offset widths COL_SPACE k' + widths k' + COL_SPACE
  end.

(** The width of column [i] of a table, 0 for a column no row reaches. *)
Definition table_widths (tableText : list (list str)) (i : nat) : Z :=
  default 0 (column_width tableText i).

(** A cell of one line that is no longer than [COL_WIDTH]. *)
Definition short_cell (COL_WIDTH : Z) (cell : str) : Prop :=
  Forall (fun c => is_nl c = false) cell /\ len cell <= COL_WIDTH.

(** The paragraphs strictly between the first and the last. *)
Definition interior {A} (l : list A) : list A := removelast (tail l).

(** * Properties *)

(** ** The functions at work *)

Example re_split_blank_runs :
  re_split_blank (text_of ["a"; ""; "b"; ""; ""; ""; "c"; "d"; ""; ""])
  = [str_of "a"; str_of "b"; text_of ["c"; "d"]; []].
Proof. reflexivity. Qed.

Example words_of_spaced :
  words_of (text_of ["  this is"; " some   text "])
  = [str_of "this"; str_of "is"; str_of "some"; str_of "text"].
Proof. reflexivity. Qed.

Example rstrip_nl_rows :
  rstrip_nl (text_of ["a"; ""; "b"; ""; ""]) = text_of ["a"; ""; "b"].
Proof. reflexivity. Qed.

Example FillParagraphs_wraps :
  FillParagraphs unit rev_shuffle
    (text_of ["This is some text. This is"; "some text."; ""; ""; "This  is."])
    18 false tt
  = Done (text_of ["This is some text."; "This is some text."; ""; "This is."], tt).
Proof. reflexivity. Qed.

Example JustifyLine_stretches :
  JustifyLine unit rev_shuffle [str_of "a"; str_of "b"; str_of "c"] 8 tt
  = Done (str_of "a  b   c", tt).
Proof. reflexivity. Qed.

Example JustifyLine_empty_line :
  JustifyLine unit rev_shuffle [] 1 tt = Raised IndexError.
Proof. reflexivity. Qed.

Example VertCatString_blocks :
  VertCatString (text_of ["ab"; "c"]) (Some 3) (text_of ["x"; "y"; "z"])
  = Done (text_of ["ab x"; "c  y"; "   z"]).
Proof. reflexivity. Qed.

Example VertCatString_computed_width :
  VertCatString (text_of ["ab"; "c"]) None (str_of "x")
  = Done (text_of ["abx"; "c "]).
Proof. reflexivity. Qed.

(** ** Calls that return *)

Lemma bind_Done {A B} (a : A) (k : A -> outcome B) : (Done a ≫= k) = k a.
Proof. reflexivity. Qed.

Lemma getitem_Some (d : gmap nat Z) k v : d !! k = Some v -> getitem d k = Done v.
Proof. unfold getitem. by intros ->. Qed.

Lemma index_Some {A} (l : list A) i x : l !! i = Some x -> index l i = Done x.
Proof. unfold index. by intros ->. Qed.

(** ** Lists of strings *)

Lemma len_app {A} (l k : list A) : len (l ++ k) = len l + len k.
Proof. unfold len. rewrite length_app. lia. Qed.

Lemma len_nonneg {A} (l : list A) : 0 <= len l.
Proof. unfold len. lia. Qed.

Lemma join_cons sep x y r : join sep (x :: y :: r) = x ++ sep ++ join sep (y :: r).
Proof. reflexivity. Qed.

Lemma join_snoc sep l w :
  l <> [] -> join sep (l ++ [w]) = join sep l ++ sep ++ w.
Proof.
  induction l as [|x [|y r] IH]; intros Hl; [done|done|].
  change ((x :: y :: r) ++ [w]) with (x :: y :: (r ++ [w])).
  rewrite !join_cons. change (y :: r ++ [w]) with ((y :: r) ++ [w]).
  rewrite IH by done. by rewrite <- !app_assoc.
Qed.

Lemma join_insert_snoc sep (l : list str) k w c :
  l !! k = Some w ->
  len (join sep (<[k := w ++ [c]]> l)) = len (join sep l) + 1.
Proof.
  revert k. induction l as [|x [|y r] IH]; intros k Hk; [done| |].
  - destruct k as [|k]; [|done]. simplify_eq/=. rewrite len_app. done.
  - destruct k as [|k].
    + simplify_eq/=. rewrite !len_app. unfold len; simpl. lia.
    + change (<[S k := w ++ [c]]> (x :: y :: r))
        with (x :: <[k := w ++ [c]]> (y :: r)).
      specialize (IH k Hk).
      destruct (<[k := w ++ [c]]> (y :: r)) as [|y' r'] eqn:E.
      { apply (f_equal length) in E. rewrite length_insert in E. done. }
      rewrite !join_cons, !len_app, IH. lia.
Qed.

Lemma stretched_refl line : stretched line line.
Proof.
  induction line; constructor; [|done]. exists 0%nat. by rewrite app_nil_r.
Qed.

Lemma stretched_trans l1 l2 l3 : stretched l1 l2 -> stretched l2 l3 -> stretched l1 l3.
Proof.
  unfold stretched. intros H12. revert l3.
  induction H12 as [|w1 w2 r1 r2 [n ->] _ IH]; intros l3 H23; [done|].
  - inversion H23 as [|? w3 ? r3 [m ->] Hr]; subst. constructor; [|by apply IH].
    exists (n + m)%nat. by rewrite replicate_add, app_assoc.
Qed.

Lemma stretched_insert (line : list str) k w :
  line !! k = Some w -> stretched line (<[k := w ++ [SP]]> line).
Proof.
  revert k. induction line as [|x r IH]; intros [|k] Hk; simplify_eq/=.
  - constructor; [|apply stretched_refl]. by exists 1%nat.
  - constructor; [|by apply IH]. exists 0%nat. by rewrite app_nil_r.
Qed.

Lemma stretched_length l1 l2 : stretched l1 l2 -> length l1 = length l2.
Proof. apply Forall2_length. Qed.

(** ** Words *)

Lemma is_word_spec w :
  is_word w = true <-> w <> [] /\ Forall (fun c => is_space c = false) w.
Proof.
  unfold is_word. rewrite andb_true_iff, bool_decide_eq_true, forallb_forall.
  rewrite Forall_forall. split; intros [Hne H]; (split; [done|]); intros c Hc.
  - apply list_elem_of_In in Hc. apply H in Hc. by destruct (is_space c).
  - apply list_elem_of_In in Hc. by rewrite (H c Hc).
Qed.

Lemma split_ws_from_words : forall s cur,
  Forall (fun c => is_space c = false) cur ->
  Forall (fun w => is_word w = true) (split_ws_from cur s).
Proof.
  induction s as [|c s IH]; intros cur Hcur; simpl.
  - destruct cur as [|a cur]; [done|]. repeat constructor.
    by apply is_word_spec.
  - destruct (is_space c) eqn:Hc.
    + destruct cur as [|a cur]; [by apply IH|].
      constructor; [by apply is_word_spec|by apply IH].
    + apply IH. apply Forall_app. by repeat constructor.
Qed.

Lemma words_of_words p : Forall (fun w => is_word w = true) (words_of p).
Proof. by apply split_ws_from_words. Qed.

(** ** Lines of a text *)

Lemma is_nl_is_space c : is_nl c = true -> is_space c = true.
Proof. unfold is_nl. intros H. apply bool_decide_eq_true in H. by subst. Qed.

Lemma not_space_not_nl c : is_space c = false -> is_nl c = false.
Proof.
  intros H. destruct (is_nl c) eqn:E; [|done].
  apply is_nl_is_space in E. congruence.
Qed.

Lemma Forall_join {P : ascii -> Prop} sep (l : list str) :
  Forall P sep -> Forall (Forall P) l -> Forall P (join sep l).
Proof.
  intros Hsep. induction l as [|x [|y r] IH]; intros Hl; [done| |].
  - by inversion Hl.
  - rewrite join_cons. inversion Hl; subst. rewrite !Forall_app. auto.
Qed.

Lemma split_nl_line l :
  Forall (fun c => is_nl c = false) l -> split_nl l = [l].
Proof.
  induction 1 as [|c l Hc _ IH]; [done|]. simpl. by rewrite Hc, IH.
Qed.

Lemma split_nl_app l rest :
  Forall (fun c => is_nl c = false) l ->
  split_nl (l ++ NL :: rest) = l :: split_nl rest.
Proof.
  induction 1 as [|c l Hc _ IH]; [done|]. simpl. by rewrite Hc, IH.
Qed.

Lemma split_nl_join_app (ls : list str) rest :
  ls <> [] ->
  Forall (Forall (fun c => is_nl c = false)) ls ->
  split_nl (join [NL] ls ++ NL :: rest) = ls ++ split_nl rest.
Proof.
  induction ls as [|x [|y r] IH]; intros Hne Hls; [done| |].
  - inversion Hls; subst. simpl. by apply split_nl_app.
  - inversion Hls; subst. rewrite join_cons, <- !app_assoc.
    cbn [app]. rewrite split_nl_app by done.
    rewrite IH by done. done.
Qed.

Lemma split_nl_join (ls : list str) :
  ls <> [] ->
  Forall (Forall (fun c => is_nl c = false)) ls ->
  split_nl (join [NL] ls) = ls.
Proof.
  induction ls as [|x [|y r] IH]; intros Hne Hls; [done| |].
  - inversion Hls; subst. by apply split_nl_line.
  - inversion Hls; subst. rewrite join_cons. cbn [app].
    rewrite split_nl_app by done. by rewrite IH.
Qed.

Lemma split_nl_text (pars : list (list str)) :
  Forall (fun ls => ls <> [] /\ Forall (Forall (fun c => is_nl c = false)) ls) pars ->
  split_nl (join [NL; NL] (map (join [NL]) pars)) = text_lines pars.
Proof.
  induction pars as [|ls [|ls' r] IH]; intros Hp; [done| |].
  - inversion Hp as [|? ? [Hne Hls] _]; subst. by apply split_nl_join.
  - inversion Hp as [|? ? [Hne Hls] Hr]; subst.
    cbn [map]. rewrite join_cons. cbn [app].
    rewrite split_nl_join_app by done.
    change (split_nl (NL :: ?s)) with ([] :: split_nl s).
    specialize (IH Hr). cbn [map] in IH. by rewrite IH.
Qed.

Lemma Forall_text_lines (P : str -> Prop) (pars : list (list str)) :
  P [] -> Forall (Forall P) pars -> Forall P (text_lines pars).
Proof.
  intros Hnil. induction pars as [|ls [|ls' r] IH]; intros Hp.
  - by repeat constructor.
  - by inversion Hp.
  - inversion Hp; subst. cbn [text_lines]. apply Forall_app. split; [done|].
    constructor; [done|]. by apply IH.
Qed.

(** ** Words and groups as lines *)

Lemma word_no_nl w : is_word w = true -> Forall (fun c => is_nl c = false) w.
Proof.
  intros [_ H]%is_word_spec. eapply Forall_impl; [done|].
  apply not_space_not_nl.
Qed.

Lemma group_line_no_nl grp :
  Forall (fun w => is_word w = true) grp ->
  Forall (fun c => is_nl c = false) (join [SP] grp).
Proof.
  intros H. apply Forall_join; [by repeat constructor|].
  eapply Forall_impl; [done|]. apply word_no_nl.
Qed.

Lemma group_line_fits width grp :
  0 <= width ->
  group_fits width grp ->
  Forall (fun w => is_word w = true) grp ->
  len (join [SP] grp) <= width
  \/ (is_word (join [SP] grp) = true /\ width < len (join [SP] grp)).
Proof.
  intros Hw [->|[[w ->]|Hfit]] Hwords; [by left| |by left].
  simpl. destruct (Z.le_gt_cases (len w) width); [by left|right].
  split; [by inversion Hwords|lia].
Qed.

(** ** Splitting what was joined *)

Lemma split_ws_from_word w : forall cur rest,
  Forall (fun c => is_space c = false) w ->
  split_ws_from cur (w ++ rest) = split_ws_from (cur ++ w) rest.
Proof.
  induction w as [|c w IH]; intros cur rest Hw; simpl.
  - by rewrite app_nil_r.
  - inversion Hw as [|? ? Hc Hw']; subst. rewrite Hc.
    rewrite IH by done. by rewrite <- app_assoc.
Qed.

Lemma split_ws_from_sep w c rest :
  is_word w = true -> is_space c = true ->
  split_ws_from [] (w ++ c :: rest) = w :: split_ws_from [] rest.
Proof.
  intros [Hne Hw]%is_word_spec Hc.
  rewrite split_ws_from_word by done. simpl. rewrite Hc. by destruct w.
Qed.

Lemma split_ws_from_end w :
  is_word w = true -> split_ws_from [] w = [w].
Proof.
  intros [Hne Hw]%is_word_spec.
  rewrite <- (app_nil_r w) at 1. rewrite split_ws_from_word by done.
  simpl. by destruct w.
Qed.

Lemma split_ws_join_app grp c rest :
  grp <> [] -> Forall (fun w => is_word w = true) grp -> is_space c = true ->
  split_ws_from [] (join [SP] grp ++ c :: rest) = grp ++ split_ws_from [] rest.
Proof.
  induction grp as [|w [|w' r] IH]; intros Hne Hg Hc; [done| |].
  - inversion Hg; subst. simpl. by apply split_ws_from_sep.
  - inversion Hg; subst. rewrite join_cons, <- !app_assoc. cbn [app].
    rewrite split_ws_from_sep by done. by rewrite IH.
Qed.

Lemma split_ws_join grp :
  Forall (fun w => is_word w = true) grp -> split_ws (join [SP] grp) = grp.
Proof.
  unfold split_ws. induction grp as [|w [|w' r] IH]; intros Hg; [done| |].
  - inversion Hg; subst. by apply split_ws_from_end.
  - inversion Hg; subst. rewrite join_cons. cbn [app].
    rewrite split_ws_from_sep by done. by rewrite IH.
Qed.

Lemma split_ws_lines (groups : list (list str)) :
  Forall (fun grp => grp <> [] /\ Forall (fun w => is_word w = true) grp) groups ->
  split_ws (join [NL] (map (join [SP]) groups)) = concat groups.
Proof.
  unfold split_ws. induction groups as [|grp [|grp' r] IH]; intros Hg; [done| |].
  - inversion Hg as [|? ? [_ Hw] _]; subst. simpl. rewrite app_nil_r.
    by apply split_ws_join.
  - inversion Hg as [|? ? [Hne Hw] Hr]; subst.
    cbn [map]. rewrite join_cons. cbn [app concat].
    rewrite split_ws_join_app by done.
    specialize (IH Hr). cbn [map concat] in IH. by rewrite IH.
Qed.

(** ** strip and split *)

Lemma split_ws_lstrip s : split_ws_from [] (lstrip s) = split_ws_from [] s.
Proof.
  induction s as [|c s IH]; [done|]. simpl.
  destruct (is_space c) eqn:Hc; [done|]. simpl. by rewrite Hc.
Qed.

Lemma split_ws_from_spaces t : forall cur,
  Forall (fun c => is_space c = true) t ->
  split_ws_from cur t = split_ws_from cur [].
Proof.
  induction t as [|c t IH]; intros cur Ht; [done|].
  inversion Ht as [|? ? Hc Ht']; subst. simpl. rewrite Hc.
  destruct cur; by rewrite IH.
Qed.

Lemma split_ws_from_trailing t : forall s cur,
  Forall (fun c => is_space c = true) t ->
  split_ws_from cur (s ++ t) = split_ws_from cur s.
Proof.
  induction s as [|c s IH]; intros cur Ht.
  - by apply split_ws_from_spaces.
  - simpl. destruct (is_space c); [destruct cur|]; by rewrite IH.
Qed.

Lemma lstrip_prefix s :
  exists t, Forall (fun c => is_space c = true) t /\ s = t ++ lstrip s.
Proof.
  induction s as [|c s (t & Ht & IH)]; [by exists []|]. simpl.
  destruct (is_space c) eqn:Hc.
  - exists (c :: t). split; [by constructor|]. simpl. by f_equal.
  - by exists [].
Qed.

Lemma split_ws_strip s : split_ws (strip s) = split_ws s.
Proof.
  unfold split_ws, strip. rewrite <- (split_ws_lstrip s).
  destruct (lstrip_prefix (rev (lstrip s))) as (t & Ht & E).
  apply (f_equal (@rev ascii)) in E. rewrite rev_involutive, rev_app_distr in E.
  rewrite E at 2. symmetry. apply split_ws_from_trailing.
  apply Forall_forall. intros c Hc. rewrite Forall_forall in Ht. apply Ht.
  apply list_elem_of_In in Hc. apply list_elem_of_In. by apply in_rev.
Qed.

Lemma split_ws_from_nil s : forall cur,
  split_ws_from cur s = [] <-> cur = [] /\ forallb is_space s = true.
Proof.
  induction s as [|c s IH]; intros cur; simpl.
  - destruct cur; intuition congruence.
  - destruct (is_space c); simpl.
    + destruct cur; [apply IH|intuition congruence].
    + rewrite IH. split; [intros [H _]; by destruct cur|intuition congruence].
Qed.

Lemma words_of_blank p : words_of p = [] <-> is_blank p = true.
Proof.
  unfold words_of, is_blank. rewrite split_ws_strip. unfold split_ws.
  rewrite split_ws_from_nil. intuition congruence.
Qed.

(** ** Splitting a filled text into its paragraphs *)

Lemma is_solid_spec l :
  is_solid l = true <-> l <> [] /\ Forall (fun c => is_nl c = false) l.
Proof.
  unfold is_solid. rewrite andb_true_iff, bool_decide_eq_true, forallb_forall.
  rewrite Forall_forall. split; intros [Hne H]; (split; [done|]); intros c Hc.
  - apply list_elem_of_In in Hc. apply H in Hc. by destruct (is_nl c).
  - apply list_elem_of_In in Hc. by rewrite (H c Hc).
Qed.

Lemma re_split_from_chars l : forall cur rest,
  Forall (fun c => is_nl c = false) l ->
  re_split_from cur false (l ++ rest) = re_split_from (cur ++ l) false rest.
Proof.
  induction l as [|c l IH]; intros cur rest Hl.
  - by rewrite app_nil_r.
  - inversion Hl as [|? ? Hc Hl']; subst. simpl. rewrite Hc.
    rewrite IH by done. by rewrite <- app_assoc.
Qed.

(** A line ends a separator that was being read. *)
Lemma re_split_from_line l cur b rest :
  is_solid l = true ->
  re_split_from cur b (l ++ rest) = re_split_from (cur ++ l) false rest.
Proof.
  intros [Hne Hl]%is_solid_spec. destruct l as [|c l]; [done|].
  inversion Hl as [|? ? Hc Hl']; subst. simpl. rewrite Hc, andb_false_r.
  rewrite re_split_from_chars by done. by rewrite <- app_assoc.
Qed.

(** One newline before a line is part of the paragraph. *)
Lemma re_split_from_single_nl c x cur :
  is_nl c = false ->
  re_split_from cur false (NL :: c :: x) = re_split_from (cur ++ [NL]) false (c :: x).
Proof. intros Hc. cbn [re_split_from]. by rewrite Hc. Qed.

Lemma re_split_from_double_nl cur rest :
  re_split_from cur false (NL :: NL :: rest) = cur :: re_split_from [] true rest.
Proof. reflexivity. Qed.

Lemma join_solid_head (ls : list str) :
  ls <> [] -> Forall (fun l => is_solid l = true) ls ->
  exists c x, join [NL] ls = c :: x /\ is_nl c = false.
Proof.
  intros Hne Hls. destruct ls as [|l r]; [done|].
  inversion Hls as [|? ? [Hl Hc]%is_solid_spec _]; subst.
  destruct l as [|c l]; [done|]. inversion Hc; subst.
  destruct r; simpl; eauto.
Qed.

Lemma re_split_from_par (ls : list str) : forall cur b rest,
  ls <> [] -> Forall (fun l => is_solid l = true) ls ->
  re_split_from cur b (join [NL] ls ++ rest)
  = re_split_from (cur ++ join [NL] ls) false rest.
Proof.
  induction ls as [|l [|l' r] IH]; intros cur b rest Hne Hls; [done| |].
  - inversion Hls; subst. by apply re_split_from_line.
  - inversion Hls as [|? ? Hl Hr]; subst.
    rewrite join_cons, <- !app_assoc. rewrite re_split_from_line by done.
    destruct (join_solid_head (l' :: r)) as (c & x & E & Hc); [done..|].
    cbn [app]. rewrite E. cbn [app].
    rewrite re_split_from_single_nl by done.
    change (c :: x ++ rest) with ((c :: x) ++ rest). rewrite <- E.
    rewrite IH by done. by rewrite <- !app_assoc.
Qed.

Lemma re_split_from_par_end (ls : list str) cur b :
  par_lines_ok ls ->
  re_split_from cur b (join [NL] ls) = [cur ++ join [NL] ls].
Proof.
  intros [->|[Hne Hls]]; [simpl; by rewrite app_nil_r|].
  rewrite <- (app_nil_r (join [NL] ls)) at 1. by rewrite re_split_from_par.
Qed.

(** ** Blank paragraphs inside a text *)

Lemma squeeze_cons ls ls' r :
  squeeze (ls :: ls' :: r)
  = if bool_decide (ls = [[]]) then squeeze (ls' :: r) else ls :: squeeze (ls' :: r).
Proof. reflexivity. Qed.

Lemma squeeze_nonempty pars : pars <> [] -> squeeze pars <> [].
Proof.
  induction pars as [|ls [|ls' r] IH]; intros Hne; [done..|].
  rewrite squeeze_cons. case_bool_decide; [by apply IH|done].
Qed.

Lemma squeeze_length pars : (length (squeeze pars) <= length pars)%nat.
Proof.
  induction pars as [|ls [|ls' r] IH]; [done..|].
  rewrite squeeze_cons. case_bool_decide; simpl in *; lia.
Qed.

Lemma squeeze_same pars :
  Forall (fun ls => ls <> [[]]) (removelast pars) -> squeeze pars = pars.
Proof.
  induction pars as [|ls [|ls' r] IH]; intros H; [done..|].
  change (removelast (ls :: ls' :: r)) with (ls :: removelast (ls' :: r)) in H.
  inversion H; subst. rewrite squeeze_cons, bool_decide_eq_false_2 by done.
  by rewrite IH.
Qed.

Lemma squeeze_shorter pars :
  ~ Forall (fun ls => ls <> [[]]) (removelast pars) ->
  (length (squeeze pars) < length pars)%nat.
Proof.
  induction pars as [|ls [|ls' r] IH]; intros H; [by destruct H; constructor..|].
  change (removelast (ls :: ls' :: r)) with (ls :: removelast (ls' :: r)) in H.
  rewrite squeeze_cons. pose proof (squeeze_length (ls' :: r)).
  case_bool_decide as Hls; [simpl in *; lia|].
  cbn [length]. apply (proj1 (Nat.succ_lt_mono _ _)), IH.
  intros Hr. apply H. by constructor.
Qed.

(** Each vanished paragraph takes the two newlines of a separator along. *)
Lemma join_squeeze_len pars :
  pars <> [] ->
  len (join [NL; NL] (map (join [NL]) pars))
  = len (join [NL; NL] (map (join [NL]) (squeeze pars)))
    + 2 * (len pars - len (squeeze pars)).
Proof.
  induction pars as [|ls [|ls' r] IH]; intros Hne; [done|simpl; lia|].
  specialize (IH ltac:(done)).
  rewrite squeeze_cons. cbn [map] in *. rewrite join_cons, !len_app, IH.
  pose proof (squeeze_nonempty (ls' :: r) ltac:(done)) as Hsq.
  case_bool_decide as Hls.
  - subst. unfold len. cbn [length join]. lia.
  - destruct (squeeze (ls' :: r)) as [|x y] eqn:E; [done|].
    cbn [map]. rewrite join_cons, !len_app. unfold len. cbn [length]. lia.
Qed.

Lemma re_split_after_sep_squeezed (pars : list (list str)) :
  pars <> [] ->
  Forall par_lines_ok pars ->
  re_split_from [] true (join [NL; NL] (map (join [NL]) pars))
  = map (join [NL]) (squeeze pars).
Proof.
  induction pars as [|ls [|ls' r] IH]; intros Hne Hok; [done| |].
  - inversion Hok; subst. simpl. by rewrite re_split_from_par_end.
  - inversion Hok as [|? ? Hls Hr]; subst. specialize (IH ltac:(done) Hr).
    rewrite squeeze_cons. cbn [map] in *. rewrite join_cons.
    case_bool_decide as Hb.
    + subst. exact IH.
    + destruct Hls as [->|[Hn Hs]]; [done|].
      rewrite re_split_from_par by done. cbn [app].
      rewrite re_split_from_double_nl. cbn [app map]. by rewrite IH.
Qed.

Lemma re_split_filled_squeezed (ls : list str) (pars : list (list str)) :
  Forall par_lines_ok (ls :: pars) ->
  re_split_blank (join [NL; NL] (map (join [NL]) (ls :: pars)))
  = map (join [NL]) (ls :: squeeze pars).
Proof.
  intros Hok. inversion Hok as [|? ? Hls Hr]; subst. unfold re_split_blank.
  destruct pars as [|ls' r]; [simpl; by rewrite re_split_from_par_end|].
  cbn [map]. rewrite join_cons.
  destruct Hls as [->|[Hn Hs]].
  - change (join [NL] [[]]) with (@nil ascii). cbn [app].
    rewrite re_split_from_double_nl. f_equal.
    by apply (re_split_after_sep_squeezed (ls' :: r)).
  - rewrite re_split_from_par by done. cbn [app].
    rewrite re_split_from_double_nl. cbn [app]. f_equal.
    by apply (re_split_after_sep_squeezed (ls' :: r)).
Qed.

(** ** JustifyLine *)

Section JustifyLine_facts.

Context {G : Type} (shuffle : G -> list nat -> list nat * G).

(** What [random.shuffle] promises: the list is rearranged, no more. *)
Hypothesis shuffle_perm : forall g l, (shuffle g l).1 ≡ₚ l.

Lemma JustifyLine_loop width n : forall (line : list str) (i : list nat) g,
  line <> [] ->
  Forall (fun k => k < length line)%nat i ->
  (Z.to_nat (width - len (join [SP] line)) <= n)%nat ->
  exists line' g',
    while1 (JustifyLine_body G shuffle width) (S n) (line, i, g)
      = Done (join [SP] line', g')
    /\ stretched line line'
    /\ len (join [SP] line') = Z.max width (len (join [SP] line))
    /\ (width <= len (join [SP] line) -> line' = line /\ g' = g).
Proof.
  induction n as [|n IH]; intros line i g Hne Hi Hn; simpl.
  - destruct (Z.ltb_spec (len (join [SP] line)) width) as [Hlt|Hge]; [lia|].
    exists line, g. split_and!; [done|apply stretched_refl|lia|done].
  - destruct (Z.ltb_spec (len (join [SP] line)) width) as [Hlt|Hge].
    2:{ exists line, g. split_and!; [done|apply stretched_refl|lia|done]. }
    set (pool := match i with
                 | [] => shuffle g (seq 0 (Nat.max 1 (length line - 1)))
                 | _ => (i, g)
                 end).
    assert (Hpool : pool.1 <> [] /\ Forall (fun k => k < length line)%nat pool.1).
    { subst pool. destruct i as [|k i]; [|done].
      pose proof (shuffle_perm g (seq 0 (Nat.max 1 (length line - 1)))) as Hp.
      split.
      - intros E. rewrite E in Hp. apply Permutation_nil_l in Hp.
        apply (f_equal length) in Hp. rewrite length_seq in Hp. simpl in Hp. lia.
      - rewrite Hp. apply Forall_forall. intros k Hk.
        apply elem_of_seq in Hk. destruct line; [done|]. simpl in *. lia. }
    destruct pool as [[|k i'] g1] eqn:Epool; simpl in Hpool; [by destruct Hpool|].
    destruct Hpool as [_ Hpool]. apply Forall_cons in Hpool as [Hk Hi'].
    destruct (lookup_lt_is_Some_2 line k Hk) as [w Hw]. rewrite Hw.
    pose proof (join_insert_snoc [SP] line k w SP Hw) as Hlen.
    destruct (IH (<[k := w ++ [SP]]> line) i' g1) as (line' & g' & Hrun & Hst & Hl & _).
    + intros E. apply (f_equal length) in E. rewrite length_insert in E.
      by destruct line.
    + by rewrite length_insert.
    + lia.
    + exists line', g'. split_and!; [done| |lia|lia].
      eapply stretched_trans; [by apply stretched_insert|done].
Qed.

Lemma JustifyLine_spec (line : list str) width g :
  line <> [] ->
  exists line' g',
    JustifyLine G shuffle line width g = Done (join [SP] line', g')
    /\ stretched line line'
    /\ len (join [SP] line') = Z.max width (len (join [SP] line))
    /\ (width <= len (join [SP] line) -> line' = line /\ g' = g).
Proof.
  intros Hne. unfold JustifyLine, JustifyLine_fuel.
  by apply JustifyLine_loop.
Qed.

End JustifyLine_facts.

(** ** The greedy loop of FillParagraphs *)

Lemma while1_S {S R} (body : S -> iter S R) fuel s :
  while1 body (Datatypes.S fuel) s
  = match body s with Again s' => while1 body fuel s' | Leave o => o end.
Proof. reflexivity. Qed.

Section Fill_facts.

Context {G : Type} (shuffle : G -> list nat -> list nat * G).

(** After a line is closed the word that did not fit starts the next. *)
Lemma fill_body_fresh width justify w ws new_par (g : G) :
  fill_body G shuffle width justify (w :: ws, [], new_par, g)
  = Again (ws, [w], new_par, g).
Proof.
  unfold fill_body. rewrite bool_decide_eq_false_2 by (by intros []).
  by rewrite andb_false_r.
Qed.

(** With [justify] off the loop emits the groups of [break_lines], each
    joined by single spaces, and leaves the generator alone. *)
Lemma fill_loop_plain width : forall (words line new_par : list str) (g : G) fuel,
  (2 * length words < fuel)%nat ->
  while1 (fill_body G shuffle width false) fuel (words, line, new_par, g)
  = Done (new_par ++ map (join [SP]) (break_lines width line words), g).
Proof.
  induction words as [|w ws IH]; intros line new_par g fuel Hfuel.
  - destruct fuel as [|fuel]; [simpl in Hfuel; lia|]. done.
  - destruct fuel as [|fuel]; [simpl in Hfuel; lia|].
    simpl in Hfuel. rewrite while1_S. cbn [fill_body break_lines].
    destruct ((width <? len (join [SP] (line ++ [w]))) && bool_decide (line <> [])).
    + destruct fuel as [|fuel]; [lia|].
      rewrite while1_S, fill_body_fresh.
      rewrite IH by lia. cbn [map]. by rewrite <- app_assoc.
    + apply IH. lia.
Qed.

Hypothesis shuffle_perm : forall g l, (shuffle g l).1 ≡ₚ l.

(** With [justify] on the same groups come out, the closed ones through
    [JustifyLine]. *)
Lemma fill_loop_justified width : forall (words line new_par : list str) (g : G) fuel,
  (2 * length words < fuel)%nat ->
  exists ls g',
    while1 (fill_body G shuffle width true) fuel (words, line, new_par, g)
    = Done (new_par ++ ls, g')
    /\ justified width (break_lines width line words) ls.
Proof.
  induction words as [|w ws IH]; intros line new_par g fuel Hfuel.
  - destruct fuel as [|fuel]; [simpl in Hfuel; lia|].
    exists [join [SP] line], g. split; [done|constructor].
  - destruct fuel as [|fuel]; [simpl in Hfuel; lia|].
    simpl in Hfuel. rewrite while1_S. cbn [fill_body break_lines].
    destruct ((width <? len (join [SP] (line ++ [w]))) && bool_decide (line <> []))
      eqn:Hclose.
    + apply andb_true_iff in Hclose as [_ Hne]. apply bool_decide_eq_true in Hne.
      destruct (JustifyLine_spec shuffle shuffle_perm line width g Hne)
        as (line' & g1 & -> & Hst & Hlen & _).
      destruct fuel as [|fuel]; [lia|].
      rewrite while1_S, fill_body_fresh.
      destruct (IH [w] (new_par ++ [join [SP] line']) g1 fuel) as (ls & g' & -> & Hj);
        [lia|].
      exists (join [SP] line' :: ls), g'. split.
      * by rewrite <- app_assoc.
      * by constructor.
    + apply IH. lia.
Qed.

End Fill_facts.

(** ** One paragraph, all paragraphs *)

Section Paragraph_facts.

Context {G : Type} (shuffle : G -> list nat -> list nat * G).

Lemma fill_paragraph_plain width p (g : G) :
  fill_paragraph G shuffle width false p g
  = Done (map (join [SP]) (groups_of width p), g).
Proof.
  unfold fill_paragraph, fill_fuel.
  rewrite fill_loop_plain by lia. done.
Qed.

Lemma fill_each_plain width ps (g : G) :
  fill_each G shuffle width false ps g
  = Done (map (fun p => map (join [SP]) (groups_of width p)) ps, g).
Proof.
  induction ps as [|p ps IH]; [done|].
  cbn [fill_each]. rewrite fill_paragraph_plain. cbn. rewrite IH. done.
Qed.

Lemma FillParagraphs_plain text width (g : G) :
  FillParagraphs G shuffle text width false g
  = Done (join [NL; NL]
            (map (fun p => join [NL] (map (join [SP]) (groups_of width p)))
                 (re_split_blank text)), g).
Proof.
  unfold FillParagraphs, fill_lines. rewrite fill_each_plain. cbn.
  by rewrite map_map.
Qed.

Hypothesis shuffle_perm : forall g l, (shuffle g l).1 ≡ₚ l.

Lemma fill_paragraph_justified width p (g : G) :
  exists ls g',
    fill_paragraph G shuffle width true p g = Done (ls, g')
    /\ justified width (groups_of width p) ls.
Proof.
  unfold fill_paragraph, fill_fuel.
  destruct (fill_loop_justified shuffle shuffle_perm width (split_ws (strip p))
              [] [] g (S (2 * length (split_ws (strip p)))))
    as (ls & g' & Hrun & Hj); [lia|].
  by exists ls, g'.
Qed.

Lemma fill_each_justified width ps (g : G) :
  exists lss g',
    fill_each G shuffle width true ps g = Done (lss, g')
    /\ Forall2 (fun p ls => justified width (groups_of width p) ls) ps lss.
Proof.
  revert g. induction ps as [|p ps IH]; intros g.
  - by exists [], g.
  - destruct (fill_paragraph_justified width p g) as (ls & g1 & Hp & Hj).
    destruct (IH g1) as (lss & g' & Hps & Hjs).
    exists (ls :: lss), g'. cbn [fill_each]. rewrite Hp. cbn. rewrite Hps. cbn.
    split; [done|by constructor].
Qed.

End Paragraph_facts.

(** ** The groups of the greedy loop *)

Lemma break_lines_fit width : forall words line,
  group_fits width line ->
  Forall (group_fits width) (break_lines width line words).
Proof.
  induction words as [|w ws IH]; intros line Hline; simpl.
  - by constructor.
  - destruct (Z.ltb_spec width (len (join [SP] (line ++ [w])))) as [Hlt|Hge]; simpl.
    + case_bool_decide as Hne.
      * constructor; [done|]. apply IH. right; left. by exists w.
      * apply IH. right; left. exists w. by subst.
    + apply IH. by right; right.
Qed.

Lemma break_lines_concat width : forall words line,
  concat (break_lines width line words) = line ++ words.
Proof.
  induction words as [|w ws IH]; intros line; simpl.
  - by rewrite !app_nil_r.
  - destruct (_ && _); simpl; rewrite IH; [done|by rewrite <- app_assoc].
Qed.

Lemma break_lines_nonempty width words line :
  break_lines width line words <> [].
Proof.
  revert line. induction words as [|w ws IH]; intros line; simpl; [done|].
  destruct (_ && _); [done|apply IH].
Qed.

(** Only the last group can be empty, and only if no word was left. *)
Lemma break_lines_groups_nonempty width : forall words line,
  line ++ words <> [] ->
  Forall (fun grp => grp <> []) (break_lines width line words).
Proof.
  induction words as [|w ws IH]; intros line Hne; simpl.
  - rewrite app_nil_r in Hne. by constructor.
  - destruct (_ && bool_decide _) eqn:E.
    + apply andb_true_iff in E as [_ E]. apply bool_decide_eq_true in E.
      constructor; [done|]. by apply IH.
    + apply IH. by destruct line.
Qed.

Lemma break_lines_words width words line :
  Forall (fun w => is_word w = true) (line ++ words) ->
  Forall (Forall (fun w => is_word w = true)) (break_lines width line words).
Proof.
  rewrite <- (break_lines_concat width words line). apply Forall_concat.
Qed.

(** ** Justified paragraphs *)

Lemma justified_nonempty width groups ls : justified width groups ls -> ls <> [].
Proof. by destruct 1. Qed.

Lemma justified_nonfinal width groups ls :
  justified width groups ls ->
  Forall (fun l => width <= len l) (removelast ls).
Proof.
  induction 1 as [grp|grp line' groups ls Hne Hst Hlen Hj IH]; [by constructor|].
  pose proof (justified_nonempty _ _ _ Hj).
  destruct ls as [|l ls]; [done|].
  change (removelast (join [SP] line' :: l :: ls))
    with (join [SP] line' :: removelast (l :: ls)).
  constructor; [lia|done].
Qed.

Lemma justified_last_line width groups ls :
  justified width groups ls ->
  last ls = last (map (join [SP]) groups).
Proof.
  induction 1 as [grp|grp line' groups ls Hne Hst Hlen Hj IH]; [done|].
  pose proof (justified_nonempty _ _ _ Hj).
  destruct Hj; simpl in *; done.
Qed.

(** ** The lines of a filled paragraph *)

Lemma join_nonempty sep (w : str) (r : list str) : w <> [] -> join sep (w :: r) <> [].
Proof. destruct w; [done|]. by destruct r. Qed.

Lemma stretched_no_nl grp line' :
  Forall (fun w => is_word w = true) grp ->
  stretched grp line' ->
  Forall (Forall (fun c => is_nl c = false)) line'.
Proof.
  intros Hwords Hst. revert Hwords.
  induction Hst as [|w w' r r' [n ->] _ IH]; intros Hwords; [done|].
  inversion Hwords as [|? ? Hw Hr]; subst. constructor; [|by apply IH].
  apply Forall_app. split; [by apply word_no_nl|by apply Forall_replicate].
Qed.

Lemma stretched_solid grp line' :
  grp <> [] -> Forall (fun w => is_word w = true) grp ->
  stretched grp line' -> is_solid (join [SP] line') = true.
Proof.
  intros Hne Hwords Hst. apply is_solid_spec. split.
  - destruct Hst as [|w w' r r' [n ->] _]; [done|].
    inversion Hwords as [|? ? [Hw _]%is_word_spec _]; subst.
    apply join_nonempty. by destruct w.
  - apply Forall_join; [by repeat constructor|].
    by eapply stretched_no_nl.
Qed.

Lemma groups_of_blank width p :
  is_blank p = true -> groups_of width p = [[]].
Proof. intros H%words_of_blank. unfold groups_of. by rewrite H. Qed.

Lemma groups_of_proper width p :
  is_blank p = false ->
  Forall (fun grp => grp <> [] /\ Forall (fun w => is_word w = true) grp)
         (groups_of width p).
Proof.
  intros Hb. unfold groups_of.
  assert (Hne : [] ++ words_of p <> []).
  { simpl. intros H%words_of_blank. congruence. }
  pose proof (break_lines_groups_nonempty width (words_of p) [] Hne) as H1.
  pose proof (break_lines_words width (words_of p) [] (words_of_words p)) as H2.
  revert H1 H2. generalize (break_lines width [] (words_of p)).
  induction 1; intros H2; [done|]. inversion H2; subst. by constructor; auto.
Qed.

Lemma plain_lines_match width p :
  lines_match p (map (join [SP]) (groups_of width p)).
Proof.
  unfold lines_match. destruct (is_blank p) eqn:Hb.
  - by rewrite groups_of_blank.
  - pose proof (groups_of_proper width p Hb) as Hg.
    pose proof (break_lines_nonempty width (words_of p) []) as Hne.
    fold (groups_of width p) in Hne. split.
    + by destruct (groups_of width p).
    + apply Forall_map. eapply Forall_impl; [done|].
      intros grp [Hn Hw]. simpl. eapply stretched_solid; [done..|].
      apply stretched_refl.
Qed.

Lemma justified_lines_solid width groups ls :
  Forall (fun grp => grp <> [] /\ Forall (fun w => is_word w = true) grp) groups ->
  justified width groups ls ->
  Forall (fun l => is_solid l = true) ls.
Proof.
  intros Hg Hj. induction Hj as [grp|grp line' groups ls Hne Hst Hlen Hj IH].
  - inversion Hg as [|? ? [Hn Hw] _]; subst. constructor; [|done].
    eapply stretched_solid; [done..|apply stretched_refl].
  - inversion Hg as [|? ? [Hn Hw] Hr]; subst. constructor; [|by apply IH].
    by eapply stretched_solid.
Qed.

Lemma justified_lines_match width p ls :
  justified width (groups_of width p) ls -> lines_match p ls.
Proof.
  intros Hj. unfold lines_match. destruct (is_blank p) eqn:Hb.
  - rewrite groups_of_blank in Hj by done. by inversion Hj.
  - split; [by eapply justified_nonempty|].
    eapply justified_lines_solid; [by apply groups_of_proper|done].
Qed.

Lemma lines_match_ok p ls : lines_match p ls -> par_lines_ok ls.
Proof. unfold lines_match, par_lines_ok. destruct (is_blank p); auto. Qed.

Lemma solid_lines_not_blank (ls : list str) :
  ls <> [] -> Forall (fun l => is_solid l = true) ls -> ls <> [[]].
Proof. intros _ Hs ->. by inversion Hs. Qed.

Lemma Forall2_interior {A B} (R : A -> B -> Prop) l k :
  Forall2 R l k -> Forall2 R (interior l) (interior k).
Proof.
  intros H. unfold interior. rewrite !removelast_firstn_len.
  assert (Ht : Forall2 R (tail l) (tail k)) by (by destruct H).
  rewrite (Forall2_length _ _ _ Ht). by apply Forall2_take.
Qed.

Lemma re_split_from_nonempty s : forall cur b, re_split_from cur b s <> [].
Proof.
  induction s as [|c s IH]; intros cur b; [done|]. simpl.
  destruct (b && is_nl c); [apply IH|].
  destruct (is_nl c); [|apply IH].
  destruct s as [|c' s']; [apply IH|].
  destruct (is_nl c'); [done|apply IH].
Qed.

Lemma words_of_filled width p :
  words_of (join [NL] (map (join [SP]) (groups_of width p))) = words_of p.
Proof.
  unfold words_of at 1. rewrite split_ws_strip.
  destruct (is_blank p) eqn:Hb.
  - rewrite groups_of_blank by done. simpl. symmetry. by apply words_of_blank.
  - rewrite split_ws_lines by (by apply groups_of_proper).
    unfold groups_of. by rewrite break_lines_concat.
Qed.

Lemma plain_pars_match width ps :
  Forall2 lines_match ps (map (fun p => map (join [SP]) (groups_of width p)) ps).
Proof. induction ps; constructor; [apply plain_lines_match|done]. Qed.

Lemma squeeze_Forall (P : list str -> Prop) pars :
  Forall P pars -> Forall P (squeeze pars).
Proof.
  induction pars as [|ls [|ls' r] IH]; intros H; [done..|].
  inversion H; subst. rewrite squeeze_cons. case_bool_decide; auto.
Qed.

Lemma blank_iff_no_line ps (pars : list (list str)) :
  Forall2 lines_match ps pars ->
  existsb is_blank ps = false <-> Forall (fun ls => ls <> [[]]) pars.
Proof.
  induction 1 as [|p ls ps pars Hp _ IH]; [done|].
  simpl. rewrite orb_false_iff, Forall_cons, IH.
  unfold lines_match in Hp. destruct (is_blank p).
  - subst. intuition congruence.
  - destruct Hp as [Hn Hs]. pose proof (solid_lines_not_blank ls Hn Hs).
    intuition congruence.
Qed.

(** * The claims about FillParagraphs and JustifyLine *)

Lemma rev_shuffle_perm (g : unit) (l : list nat) : (rev_shuffle g l).1 ≡ₚ l.
Proof. simpl. symmetry. apply Permutation_rev. Qed.

(** ** Unjustified filling: line lengths *)

Section Plain_lines.

Context {G : Type} (shuffle : G -> list nat -> list nat * G).

(** C4: with [justify] off and a positive [width], every line of the
    output of [FillParagraphs] is at most [width] long, unless it is a
    single word that is itself longer than [width]. *)
Theorem FillParagraphs_lines_fit (text : str) (width : Z) (g : G) :
  0 < width ->
  exists out,
    FillParagraphs G shuffle text width false g = Done (out, g)
    /\ Forall (fun l => len l <= width \/ (is_word l = true /\ width < len l))
              (split_nl out).
Proof.
  intros Hw. rewrite FillParagraphs_plain. eexists. split; [done|].
  rewrite <- (map_map (fun p => map (join [SP]) (groups_of width p)) (join [NL])).
  rewrite split_nl_text.
  - apply Forall_text_lines; [left; unfold len; simpl; lia|].
    apply Forall_map, Forall_forall. intros p _.
    apply Forall_map. unfold groups_of.
    pose proof (break_lines_fit width (words_of p) [] (or_introl eq_refl)) as Hfit.
    pose proof (break_lines_words width (words_of p) [] (words_of_words p)) as Hwd.
    revert Hfit Hwd. generalize (break_lines width [] (words_of p)).
    induction 1 as [|grp groups Hgrp _ IH]; intros Hwd; [done|].
    inversion Hwd; subst. constructor; [|by apply IH].
    apply group_line_fits; [lia|done..].
  - apply Forall_map, Forall_forall. intros p _. split.
    + unfold groups_of. pose proof (break_lines_nonempty width (words_of p) []).
      by destruct (break_lines width [] (words_of p)).
    + apply Forall_map. unfold groups_of.
      pose proof (break_lines_words width (words_of p) [] (words_of_words p)) as Hwd.
      eapply Forall_impl; [done|]. apply group_line_no_nl.
Qed.

End Plain_lines.

(** The filling of a small text at width 9: every line fits. *)
Lemma FillParagraphs_lines_fit_witness :
  0 < 9 /\
  exists out,
    FillParagraphs unit rev_shuffle (text_of ["this is some"; "text"; ""; "more"])
                   9 false tt = Done (out, tt)
    /\ Forall (fun l => len l <= 9 \/ (is_word l = true /\ 9 < len l))
              (split_nl out).
Proof.
  split; [lia|].
  apply (FillParagraphs_lines_fit rev_shuffle
           (text_of ["this is some"; "text"; ""; "more"]) 9 tt). lia.
Defined.

(** ** Justified filling *)

Section Justified_lines.

Context {G : Type} (shuffle : G -> list nat -> list nat * G).
Hypothesis shuffle_perm : forall g l, (shuffle g l).1 ≡ₚ l.

Lemma fill_lines_justified text width (g : G) :
  exists pars g',
    fill_lines G shuffle text width true g = Done (pars, g')
    /\ FillParagraphs G shuffle text width true g
       = Done (join [NL; NL] (map (join [NL]) pars), g')
    /\ Forall2 (fun p ls => justified width (groups_of width p) ls)
               (re_split_blank text) pars.
Proof.
  destruct (fill_each_justified shuffle shuffle_perm width (re_split_blank text) g)
    as (pars & g' & Hrun & Hj).
  exists pars, g'. unfold FillParagraphs, fill_lines. by rewrite Hrun.
Qed.

(** C5: for a non-empty word list [JustifyLine] returns a string at least
    [width] long, and the single-space join itself, at once, when that is
    already [width] long or longer; hence every line but the last of each
    paragraph filled with [justify] on is at least [width] long. *)
Theorem JustifyLine_reaches_width :
  (forall (line : list str) (width : Z) (g : G),
     line <> [] ->
     exists s g',
       JustifyLine G shuffle line width g = Done (s, g')
       /\ width <= len s
       /\ (width <= len (join [SP] line) -> s = join [SP] line /\ g' = g))
  /\ (forall (text : str) (width : Z) (g : G),
        exists pars g',
          fill_lines G shuffle text width true g = Done (pars, g')
          /\ FillParagraphs G shuffle text width true g
             = Done (join [NL; NL] (map (join [NL]) pars), g')
          /\ Forall (fun ls => Forall (fun l => width <= len l) (removelast ls))
                    pars).
Proof.
  split.
  - intros line width g Hne.
    destruct (JustifyLine_spec shuffle shuffle_perm line width g Hne)
      as (line' & g' & Hrun & _ & Hlen & Hsame).
    exists (join [SP] line'), g'. split_and!; [done|lia|].
    intros Hge. destruct (Hsame Hge) as [-> ->]. done.
  - intros text width g.
    destruct (fill_lines_justified text width g) as (pars & g' & H1 & H2 & Hj).
    exists pars, g'. split_and!; [done..|].
    clear H1 H2. induction Hj as [|p ls ps pars Hp _ IH]; constructor; [|done].
    by eapply justified_nonfinal.
Qed.

(** C6: with [justify] on, the last line of every paragraph is the plain
    join of its words by single spaces, the very line that filling with
    [justify] off ends the paragraph with. *)
Theorem FillParagraphs_last_line_plain (text : str) (width : Z) (g : G) :
  exists pars g',
    fill_lines G shuffle text width true g = Done (pars, g')
    /\ FillParagraphs G shuffle text width true g
       = Done (join [NL; NL] (map (join [NL]) pars), g')
    /\ Forall2 (fun p ls =>
                  exists l, last ls = Some l
                            /\ l = join [SP] (split_ws l)
                            /\ last (map (join [SP]) (groups_of width p)) = Some l)
               (re_split_blank text) pars.
Proof.
  destruct (fill_lines_justified text width g) as (pars & g' & H1 & H2 & Hj).
  exists pars, g'. split_and!; [done..|].
  clear H1 H2. induction Hj as [|p ls ps pars Hp _ IH]; constructor; [|done].
  rewrite (justified_last_line _ _ _ Hp). unfold groups_of.
  pose proof (break_lines_words width (words_of p) [] (words_of_words p)) as Hwd.
  pose proof (break_lines_nonempty width (words_of p) []) as Hne.
  revert Hwd Hne. generalize (break_lines width [] (words_of p)). intros groups.
  induction groups as [|grp [|grp' r] IHg]; intros Hwd Hne; [done| |].
  - inversion Hwd; subst. exists (join [SP] grp). split_and!; [done| |done].
    by rewrite split_ws_join.
  - inversion Hwd; subst. apply IHg; done.
Qed.

End Justified_lines.

(** A two-word line stretched to width 5, with the reversing generator. *)
Lemma JustifyLine_reaches_width_witness :
  (forall g l, (rev_shuffle g l).1 ≡ₚ l)
  /\ [str_of "a"; str_of "b"] <> []
  /\ exists s g',
       JustifyLine unit rev_shuffle [str_of "a"; str_of "b"] 5 tt = Done (s, g')
       /\ 5 <= len s.
Proof.
  split; [exact rev_shuffle_perm|]. split; [done|].
  destruct (JustifyLine_reaches_width rev_shuffle rev_shuffle_perm) as [H _].
  destruct (H [str_of "a"; str_of "b"] 5 tt) as (s & g' & Hrun & Hlen & _); [done|].
  by exists s, g'.
Defined.

(** A text of two paragraphs filled and justified at width 9. *)
Lemma FillParagraphs_last_line_plain_witness :
  (forall g l, (rev_shuffle g l).1 ≡ₚ l)
  /\ exists pars g',
       fill_lines unit rev_shuffle (text_of ["this is some text"; ""; "more of it"])
                  9 true tt = Done (pars, g')
       /\ Forall (fun ls => exists l, last ls = Some l /\ l = join [SP] (split_ws l))
                 pars.
Proof.
  split; [exact rev_shuffle_perm|].
  destruct (FillParagraphs_last_line_plain rev_shuffle rev_shuffle_perm
              (text_of ["this is some text"; ""; "more of it"]) 9 tt)
    as (pars & g' & Hrun & _ & Hlast).
  exists pars, g'. split; [done|].
  clear Hrun. induction Hlast as [|p ls ps pars (l & H1 & H2 & _) _ IH];
    constructor; [by exists l|done].
Defined.

(** ** Widths that are not positive *)

Lemma break_lines_narrow width : forall words x,
  width <= 0 ->
  break_lines width [x] words = map (fun w => [w]) (x :: words).
Proof.
  induction words as [|w ws IH]; intros x Hw; [done|].
  cbn [break_lines]. rewrite bool_decide_eq_true_2 by done.
  assert (H : (width <? len (join [SP] ([x] ++ [w]))) = true).
  { apply Z.ltb_lt. simpl. rewrite !len_app.
    pose proof (len_nonneg x). pose proof (len_nonneg w).
    unfold len at 2. simpl. lia. }
  rewrite H. simpl. by rewrite IH.
Qed.

Lemma groups_narrow width words :
  width <= 0 ->
  map (join [SP]) (break_lines width [] words) = one_per_line words.
Proof.
  intros Hw. destruct words as [|w ws]; [done|].
  cbn [break_lines]. rewrite bool_decide_eq_false_2 by (by intros []).
  rewrite andb_false_r. cbn [app]. rewrite break_lines_narrow by done.
  rewrite map_map. simpl. by rewrite map_id.
Qed.

Section Narrow.

Context {G : Type} (shuffle : G -> list nat -> list nat * G).

(** A line that is long enough comes back at once, the generator unused. *)
Lemma JustifyLine_long_enough (line : list str) width (g : G) :
  width <= len (join [SP] line) ->
  JustifyLine G shuffle line width g = Done (join [SP] line, g).
Proof.
  intros H. unfold JustifyLine, JustifyLine_fuel. rewrite while1_S.
  unfold JustifyLine_body.
  destruct (Z.ltb_spec (len (join [SP] line)) width); [lia|done].
Qed.

Lemma fill_body_narrow width justify st :
  width <= 0 ->
  fill_body G shuffle width justify st = fill_body G shuffle width false st.
Proof.
  intros Hw. destruct justify; [|done].
  destruct st as [[[words line] new_par] g]. unfold fill_body.
  destruct words as [|w ws]; [done|].
  destruct (_ && _); [|done].
  rewrite JustifyLine_long_enough; [done|].
  pose proof (len_nonneg (join [SP] line)). lia.
Qed.

Lemma while1_ext {S R} (body body' : S -> iter S R) fuel s :
  (forall s, body s = body' s) ->
  while1 body fuel s = while1 body' fuel s.
Proof.
  intros Hb. revert s. induction fuel as [|fuel IH]; intros s; [done|].
  rewrite !while1_S, Hb. destruct (body' s); [apply IH|done].
Qed.

Lemma fill_each_narrow width justify ps (g : G) :
  width <= 0 ->
  fill_each G shuffle width justify ps g
  = Done (map (fun p => one_per_line (words_of p)) ps, g).
Proof.
  intros Hw. induction ps as [|p ps IH]; [done|].
  cbn [fill_each]. unfold fill_paragraph.
  rewrite (while1_ext _ (fill_body G shuffle width false))
    by (intros st; by apply fill_body_narrow).
  rewrite fill_loop_plain by (unfold fill_fuel; lia).
  cbn. rewrite IH. cbn. by rewrite groups_narrow.
Qed.

(** C3, as the code has it: a width of zero or less raises nothing.
    [FillParagraphs] returns, every word alone on its line, a paragraph
    without words as one empty line, two newlines between paragraphs. *)
Theorem FillParagraphs_nonpositive_width (text : str) (width : Z)
    (justify : bool) (g : G) :
  width <= 0 ->
  FillParagraphs G shuffle text width justify g
  = Done (join [NL; NL]
            (map (fun p => join [NL] (one_per_line (words_of p)))
                 (re_split_blank text)), g).
Proof.
  intros Hw. unfold FillParagraphs, fill_lines.
  rewrite fill_each_narrow by done. cbn. by rewrite map_map.
Qed.

End Narrow.

(** Width 0 and width -3 on a two-word text. *)
Lemma FillParagraphs_nonpositive_width_witness :
  -3 <= 0
  /\ FillParagraphs unit rev_shuffle (text_of ["a b"]) (-3) true tt
     = Done (text_of ["a"; "b"], tt).
Proof.
  split; [lia|].
  rewrite (FillParagraphs_nonpositive_width rev_shuffle (text_of ["a b"]) (-3) true tt)
    by lia.
  reflexivity.
Defined.

(** C3 fails on the code: at width 0 the call returns a text. *)
Lemma FillParagraphs_zero_width_returns :
  FillParagraphs unit rev_shuffle (text_of ["a b"]) 0 false tt
  = Done (text_of ["a"; "b"], tt)
  /\ forall e, FillParagraphs unit rev_shuffle (text_of ["a b"]) 0 false tt
               <> Raised e.
Proof. split; [reflexivity|]. intros e. discriminate. Qed.

(** ** A blank paragraph between two others *)

(** C7 fails on the code: a blank paragraph between two others is filled
    to the empty string, its two separators run together and the output
    has a paragraph less than the text. *)
Lemma FillParagraphs_blank_paragraph_merges :
  FillParagraphs unit rev_shuffle (text_of ["a"; ""; " "; ""; "b"]) 80 false tt
  = Done (text_of ["a"; ""; ""; ""; "b"], tt)
  /\ length (re_split_blank (text_of ["a"; ""; " "; ""; "b"])) = 3%nat
  /\ length (re_split_blank (text_of ["a"; ""; ""; ""; "b"])) = 2%nat.
Proof. split_and!; reflexivity. Qed.

(** ** Filling twice *)

Section Refill.

Context {G : Type} (shuffle : G -> list nat -> list nat * G).

(** Filling a filled text: the paragraphs come back, except the blank
    ones strictly between the first and the last. *)
Lemma FillParagraphs_refill width p ps (g : G) :
  let lines := fun q => map (join [SP]) (groups_of width q) in
  FillParagraphs G shuffle
    (join [NL; NL] (map (join [NL]) (map lines (p :: ps)))) width false g
  = Done (join [NL; NL]
            (map (join [NL]) (lines p :: squeeze (map lines ps))), g).
Proof.
  intros lines. rewrite FillParagraphs_plain. do 2 f_equal.
  change (map lines (p :: ps)) with (lines p :: map lines ps).
  rewrite re_split_filled_squeezed.
  2:{ change (lines p :: map lines ps) with (map lines (p :: ps)).
      generalize (p :: ps). intros l.
      induction l; constructor; [|done].
      eapply lines_match_ok, plain_lines_match. }
  f_equal. rewrite map_map. apply Forall_fmap_ext_1.
  assert (H : Forall (fun ls => lines (join [NL] ls) = ls) (map lines (p :: ps))).
  { apply Forall_map, Forall_forall. intros q _. subst lines. simpl.
    unfold groups_of at 1. by rewrite words_of_filled. }
  cbn [map] in H. inversion H as [|? ? Hp Hps]; subst.
  constructor; [by f_equal|].
  apply squeeze_Forall in Hps. eapply Forall_impl; [done|].
  intros ls Hls. simpl in *. by f_equal.
Qed.

(** C8, as the code has it: filling a filled text again, at the same
    width and with [justify] off, gives the same text exactly when no
    paragraph strictly between the first and the last of the original
    text is blank. *)
Theorem FillParagraphs_idempotent (text : str) (width : Z) (g : G) :
  exists out out',
    FillParagraphs G shuffle text width false g = Done (out, g)
    /\ FillParagraphs G shuffle out width false g = Done (out', g)
    /\ (out' = out <-> existsb is_blank (interior (re_split_blank text)) = false).
Proof.
  pose proof (re_split_from_nonempty text [] false) as Hne.
  pose proof (plain_pars_match width (re_split_blank text)) as Hm.
  fold (re_split_blank text) in Hne.
  destruct (re_split_blank text) as [|p ps] eqn:E; [done|].
  exists (join [NL; NL]
            (map (join [NL])
                 (map (fun q => map (join [SP]) (groups_of width q)) (p :: ps)))).
  exists (join [NL; NL]
            (map (join [NL])
                 (map (join [SP]) (groups_of width p)
                  :: squeeze (map (fun q => map (join [SP]) (groups_of width q)) ps)))).
  split_and!.
  { by rewrite FillParagraphs_plain, E, map_map. }
  { apply FillParagraphs_refill. }
  apply Forall2_interior in Hm. unfold interior in *. cbn [tail map] in *.
  rewrite (blank_iff_no_line _ _ Hm).
  set (pars := map (fun q => map (join [SP]) (groups_of width q)) ps) in *.
  set (l0 := map (join [SP]) (groups_of width p)).
  split.
  - intros Eq. apply (f_equal len) in Eq.
    destruct (decide (Forall (fun ls => ls <> [[]]) (removelast pars)))
      as [|Hn]; [done|].
    apply squeeze_shorter in Hn. exfalso.
    destruct pars as [|ls r] eqn:Epars; [simpl in Hn; lia|].
    pose proof (squeeze_nonempty (ls :: r) ltac:(done)) as Hsq.
    pose proof (join_squeeze_len (ls :: r) ltac:(done)) as Hlen.
    destruct (squeeze (ls :: r)) as [|x y] eqn:Esq; [done|].
    cbn [map] in Eq, Hlen. rewrite !join_cons, !len_app in Eq.
    unfold len in Hlen at 3 4. lia.
  - intros H. by rewrite (squeeze_same pars H).
Qed.

End Refill.

(** A text whose middle separator is four newlines long. *)
Lemma FillParagraphs_idempotent_witness :
  exists out,
    FillParagraphs unit rev_shuffle
      (text_of ["one two"; ""; "three"; ""; ""; ""; "four"]) 5 false tt
    = Done (out, tt)
    /\ FillParagraphs unit rev_shuffle out 5 false tt = Done (out, tt).
Proof.
  destruct (FillParagraphs_idempotent rev_shuffle
              (text_of ["one two"; ""; "three"; ""; ""; ""; "four"]) 5 tt)
    as (out & out' & H1 & H2 & [_ Hsame]).
  exists out. split; [done|]. rewrite H2. by rewrite Hsame.
Defined.

(** C8 fails on the code: the same text filled twice is not the text
    filled once. *)
Lemma FillParagraphs_not_idempotent :
  0 < 80
  /\ FillParagraphs unit rev_shuffle (text_of ["a"; ""; " "; ""; "b"]) 80 false tt
     = Done (text_of ["a"; ""; ""; ""; "b"], tt)
  /\ FillParagraphs unit rev_shuffle (text_of ["a"; ""; ""; ""; "b"]) 80 false tt
     = Done (text_of ["a"; ""; "b"], tt)
  /\ text_of ["a"; ""; "b"] <> text_of ["a"; ""; ""; ""; "b"].
Proof. split_and!; [lia|reflexivity|reflexivity|discriminate]. Qed.

(** * The claims about VertCatString and FormatTable *)

(** ** VertCatString *)

(** The loop of [VertCatString] lengthens a list just when the index has
    run past its end, so the read that follows finds an element. *)
Lemma extend_lookup {A} (orig cur : list A) (i : nat) (d : A) :
  length cur = Nat.max (length orig) i ->
  (forall j, (i <= j)%nat -> cur !! j = orig !! j) ->
  let cur' := if bool_decide (length cur <= i)%nat then cur ++ [d] else cur in
  cur' !! i = Some (default d (orig !! i))
  /\ length cur' = Nat.max (length orig) (S i)
  /\ (forall j, (S i <= j)%nat -> cur' !! j = orig !! j).
Proof.
  intros Hlen Hsame. cbn zeta. case_bool_decide as Hi.
  - assert (length cur = i) as Hcur by lia.
    assert (orig !! i = None) as Ho.
    { rewrite <- Hsame by lia. apply lookup_ge_None. lia. }
    rewrite Ho. split_and!.
    + rewrite lookup_app_r by lia. by replace (i - length cur)%nat with 0%nat by lia.
    + rewrite length_app. simpl. lia.
    + intros j Hj. rewrite lookup_ge_None_2 by (rewrite length_app; simpl; lia).
      symmetry. apply lookup_ge_None. lia.
  - destruct (lookup_lt_is_Some_2 cur i) as [x Hx]; [lia|].
    rewrite <- Hsame by lia. rewrite Hx. split_and!; [done|lia|].
    intros j Hj. apply Hsame. lia.
Qed.

Lemma vcat_body_step width1 (lines1 lines2 l1s l2s ret : list str) (i : nat) :
  length l1s = Nat.max (length lines1) i ->
  (forall j, (i <= j)%nat -> l1s !! j = lines1 !! j) ->
  length l2s = Nat.max (length lines2) i ->
  (forall j, (i <= j)%nat -> l2s !! j = lines2 !! j) ->
  exists l1s' l2s',
    vcat_body width1 (l1s, l2s, ret) i
    = Done (l1s', l2s', ret ++ [vcat_line width1 lines1 lines2 i])
    /\ length l1s' = Nat.max (length lines1) (S i)
    /\ (forall j, (S i <= j)%nat -> l1s' !! j = lines1 !! j)
    /\ length l2s' = Nat.max (length lines2) (S i)
    /\ (forall j, (S i <= j)%nat -> l2s' !! j = lines2 !! j).
Proof.
  intros H1 H1' H2 H2'.
  destruct (extend_lookup lines1 l1s i (repeat_char SP width1) H1 H1')
    as (Ha & Hb & Hc).
  destruct (extend_lookup lines2 l2s i [] H2 H2') as (Ha2 & Hb2 & Hc2).
  unfold vcat_body.
  set (l1s1 := if bool_decide (length l1s <= i)%nat
               then l1s ++ [repeat_char SP width1] else l1s) in *.
  set (l2s1 := if bool_decide (length l2s <= i)%nat then l2s ++ [[]] else l2s) in *.
  set (l1 := default (repeat_char SP width1) (lines1 !! i)) in *.
  rewrite (index_Some _ _ _ Ha), bind_Done.
  assert (Hins : <[i := l1 ++ repeat_char SP (width1 - len l1)]> l1s1 !! i
                 = Some (l1 ++ repeat_char SP (width1 - len l1))).
  { apply list_lookup_insert_eq. lia. }
  rewrite (index_Some _ _ _ Hins), bind_Done.
  rewrite (index_Some _ _ _ Ha2), bind_Done.
  eexists _, _. split_and!; [done| | |done|done].
  - rewrite length_insert. done.
  - intros j Hj. rewrite list_lookup_insert_ne by lia. by apply Hc.
Qed.

Lemma vcat_loop width1 (lines1 lines2 : list str) : forall k i l1s l2s ret,
  length l1s = Nat.max (length lines1) i ->
  (forall j, (i <= j)%nat -> l1s !! j = lines1 !! j) ->
  length l2s = Nat.max (length lines2) i ->
  (forall j, (i <= j)%nat -> l2s !! j = lines2 !! j) ->
  exists l1s' l2s',
    for_each (vcat_body width1) (seq i k) (l1s, l2s, ret)
    = Done (l1s', l2s', ret ++ map (vcat_line width1 lines1 lines2) (seq i k)).
Proof.
  induction k as [|k IH]; intros i l1s l2s ret H1 H1' H2 H2'; cbn [seq for_each map].
  - eexists _, _. by rewrite app_nil_r.
  - destruct (vcat_body_step width1 lines1 lines2 l1s l2s ret i H1 H1' H2 H2')
      as (l1s' & l2s' & -> & Ha & Hb & Hc & Hd).
    rewrite bind_Done.
    destruct (IH (S i) l1s' l2s' (ret ++ [vcat_line width1 lines1 lines2 i])
                 Ha Hb Hc Hd) as (l1s'' & l2s'' & ->).
    eexists _, _. by rewrite <- app_assoc.
Qed.

(** [VertCatString] raises nothing and returns [vcat]. *)
Lemma VertCatString_result string1 width1 string2 :
  VertCatString string1 width1 string2 = Done (vcat string1 width1 string2).
Proof.
  unfold VertCatString, vcat.
  destruct (vcat_loop (default (block_width (split_nl string1)) width1)
              (split_nl string1) (split_nl string2)
              (Nat.max (length (split_nl string1)) (length (split_nl string2)))
              0 (split_nl string1) (split_nl string2) [])
    as (l1s & l2s & ->); [lia|done|lia|done|].
  by rewrite bind_Done.
Qed.

(** C9: on two one-line blocks [VertCatString] pads the left one with
    spaces to [width1] and appends the right one, nothing in between;
    so ["AB"], 2, ["CD"] give ["ABCD"] and ["A"], 2, ["CD"] give ["A CD"]. *)
Theorem VertCatString_single_lines :
  (forall (string1 string2 : str) (width1 : Z),
     Forall (fun c => is_nl c = false) string1 ->
     Forall (fun c => is_nl c = false) string2 ->
     VertCatString string1 (Some width1) string2
     = Done (string1 ++ repeat_char SP (width1 - len string1) ++ string2))
  /\ VertCatString (str_of "AB") (Some 2) (str_of "CD") = Done (str_of "ABCD")
  /\ VertCatString (str_of "A") (Some 2) (str_of "CD") = Done (str_of "A CD").
Proof.
  split; [|done].
  intros string1 string2 width1 H1 H2. rewrite VertCatString_result. unfold vcat.
  rewrite (split_nl_line string1), (split_nl_line string2) by done.
  simpl. unfold vcat_line. simpl. by rewrite <- app_assoc.
Qed.

(** A left block one short of its column and one that fills it. *)
Lemma VertCatString_single_lines_witness :
  Forall (fun c => is_nl c = false) (str_of "A")
  /\ Forall (fun c => is_nl c = false) (str_of "CD")
  /\ VertCatString (str_of "A") (Some 2) (str_of "CD")
     = Done (str_of "A" ++ repeat_char SP (2 - len (str_of "A")) ++ str_of "CD").
Proof.
  assert (H1 : Forall (fun c => is_nl c = false) (str_of "A")) by (by repeat constructor).
  assert (H2 : Forall (fun c => is_nl c = false) (str_of "CD")) by (by repeat constructor).
  split_and!; [done..|].
  destruct VertCatString_single_lines as [H _]. by apply H.
Defined.

(** ** FormatTable: the dictionary of column widths *)

Lemma contiguous_size d n : contiguous d n -> size d = n.
Proof.
  intros H. rewrite <- size_dom.
  assert (dom d = set_seq (C := gset nat) 0 n) as ->.
  { apply set_eq. intros i. rewrite elem_of_dom, elem_of_set_seq, (H i). lia. }
  apply size_set_seq.
Qed.

Lemma contiguous_insert d n i v :
  contiguous d n -> (i <= n)%nat -> contiguous (<[i := v]> d) (Nat.max n (S i)).
Proof.
  intros H Hi j. destruct (decide (i = j)) as [->|Hne].
  - rewrite lookup_insert_eq. split; [lia|by eauto].
  - rewrite lookup_insert_ne by done. rewrite (H j). lia.
Qed.

Lemma record_lengths_contiguous : forall lengths i d n,
  contiguous d n -> (i <= n)%nat ->
  contiguous (record_lengths i lengths d) (Nat.max n (i + length lengths)).
Proof.
  induction lengths as [|l ls IH]; intros i d n Hd Hi; simpl.
  - by replace (Nat.max n (i + 0)) with n by lia.
  - replace (Nat.max n (i + S (length ls)))
      with (Nat.max (Nat.max n (S i)) (S i + length ls)) by lia.
    apply IH; [by apply contiguous_insert|lia].
Qed.

Lemma max_lengths_contiguous_from (tableText : list (list str)) : forall d n,
  contiguous d n ->
  exists n',
    contiguous
      (foldl (fun maxlengths row => record_lengths 0 (map len row) maxlengths)
             d tableText) n'
    /\ (n <= n')%nat
    /\ Forall (fun row => length row <= n')%nat tableText.
Proof.
  induction tableText as [|row rows IH]; intros d n Hd; simpl.
  - exists n. by split_and!.
  - destruct (IH (record_lengths 0 (map len row) d)
                 (Nat.max n (0 + length (map len row)))) as (n' & Hc & Hle & Hrows).
    { apply record_lengths_contiguous; [done|lia]. }
    rewrite length_map in Hle. exists n'. split_and!; [done|lia|].
    constructor; [lia|done].
Qed.

Lemma max_lengths_contiguous (tableText : list (list str)) :
  exists n,
    contiguous (max_lengths tableText) n
    /\ Forall (fun row => length row <= n)%nat tableText.
Proof.
  destruct (max_lengths_contiguous_from tableText ∅ 0) as (n & Hc & _ & Hrows).
  - intros i. rewrite lookup_empty. split; [by intros []|lia].
  - by exists n.
Qed.

Lemma cap_loop_ok COL_WIDTH n : forall k a d,
  contiguous d n -> (a + k <= n)%nat ->
  exists d',
    for_each (fun maxlengths i =>
                v ← getitem maxlengths i;
                Done (<[i := Z.min v COL_WIDTH]> maxlengths))
             (seq a k) d = Done d'
    /\ contiguous d' n.
Proof.
  induction k as [|k IH]; intros a d Hd Hak; simpl.
  - by exists d.
  - destruct (proj2 (Hd a)) as [v Hv]; [lia|].
    rewrite (getitem_Some _ _ _ Hv). cbn.
    apply IH; [|lia].
    replace n with (Nat.max n (S a)) by lia. apply contiguous_insert; [done|lia].
Qed.

Lemma cap_lengths_ok COL_WIDTH d n :
  contiguous d n ->
  exists d', cap_lengths COL_WIDTH d = Done d' /\ contiguous d' n.
Proof.
  intros Hd. unfold cap_lengths. rewrite (contiguous_size d n Hd).
  apply cap_loop_ok; [done|lia].
Qed.

(** ** FormatTable: rows *)

Lemma format_row_empty d COL_SPACE : format_row d COL_SPACE [] = Raised IndexError.
Proof. reflexivity. Qed.

Lemma add_column_ok (d : gmap nat Z) COL_SPACE (row : list str) rowtext width i cell m :
  row !! i = Some cell -> d !! i = Some m ->
  add_column d COL_SPACE row (rowtext, width) i
  = Done (vcat (vcat rowtext (Some width) (repeat_char SP COL_SPACE))
               (Some (width + COL_SPACE)) cell,
          width + COL_SPACE + m).
Proof.
  intros Hcell Hm. unfold add_column.
  rewrite VertCatString_result, bind_Done.
  rewrite (index_Some _ _ _ Hcell), bind_Done.
  rewrite VertCatString_result, bind_Done.
  by rewrite (getitem_Some _ _ _ Hm).
Qed.

Lemma format_row_loop_ok (d : gmap nat Z) COL_SPACE (row : list str) :
  (forall i, (i < length row)%nat -> is_Some (d !! i)) ->
  forall k a st, (a + k <= length row)%nat ->
  exists st', for_each (add_column d COL_SPACE row) (seq a k) st = Done st'.
Proof.
  intros Hd. induction k as [|k IH]; intros a [rowtext width] Hak; cbn [seq for_each].
  - by eexists.
  - destruct (lookup_lt_is_Some_2 row a) as [cell Hcell]; [lia|].
    destruct (Hd a) as [m Hm]; [lia|].
    rewrite (add_column_ok _ _ _ _ _ _ _ _ Hcell Hm), bind_Done.
    apply IH. lia.
Qed.

Lemma format_row_ok (d : gmap nat Z) COL_SPACE (row : list str) :
  row <> [] ->
  (forall i, (i < length row)%nat -> is_Some (d !! i)) ->
  exists rowtext, format_row d COL_SPACE row = Done rowtext.
Proof.
  intros Hne Hd. destruct row as [|c0 r]; [done|].
  destruct (Hd 0%nat) as [w Hw]; [simpl; lia|].
  destruct (format_row_loop_ok d COL_SPACE (c0 :: r) Hd (length (c0 :: r) - 1) 1 (c0, w))
    as [[rowtext width] Hrun]; [simpl; lia|].
  unfold format_row.
  rewrite (index_Some (c0 :: r) 0 c0 eq_refl), bind_Done.
  rewrite (getitem_Some _ _ _ Hw), bind_Done.
  rewrite Hrun, bind_Done. by eexists.
Qed.

Lemma rows_loop (d : gmap nat Z) ROW_SPACE COL_SPACE : forall rows acc,
  Forall (fun row : list str =>
            forall i, (i < length row)%nat -> is_Some (d !! i)) rows ->
  if existsb is_empty_row rows
  then for_each (fun retTableText row =>
                   rowtext ← format_row d COL_SPACE row;
                   Done (retTableText ++ rowtext ++ repeat_char NL ROW_SPACE))
                rows acc = Raised IndexError
  else exists ret,
         for_each (fun retTableText row =>
                     rowtext ← format_row d COL_SPACE row;
                     Done (retTableText ++ rowtext ++ repeat_char NL ROW_SPACE))
                  rows acc = Done ret.
Proof.
  induction rows as [|row rows IH]; intros acc Hrows; simpl.
  - by eexists.
  - inversion Hrows as [|? ? Hrow Hrest]; subst.
    unfold is_empty_row at 1. case_bool_decide as Hempty; simpl.
    + subst. done.
    + destruct (format_row_ok d COL_SPACE row Hempty Hrow) as [rowtext ->]. cbn.
      by apply IH.
Qed.

Section Table_facts.

Context {G : Type} (shuffle : G -> list nat -> list nat * G).

Lemma fill_row_plain COL_WIDTH row (g : G) :
  fill_row G shuffle COL_WIDTH row g
  = Done (map (fun cell => fill_plain cell COL_WIDTH) row, g).
Proof.
  induction row as [|cell cells IH]; [done|].
  cbn [fill_row]. rewrite FillParagraphs_plain. cbn. rewrite IH. done.
Qed.

Lemma fill_table_plain COL_WIDTH tableText (g : G) :
  fill_table G shuffle COL_WIDTH tableText g
  = Done (map (map (fun cell => fill_plain cell COL_WIDTH)) tableText, g).
Proof.
  induction tableText as [|row rows IH]; [done|].
  cbn [fill_table]. rewrite fill_row_plain. cbn. rewrite IH. done.
Qed.

(** The table whose rows are laid out. *)
Lemma formatted_table COL_WIDTH (tableText : list (list str)) (justify : bool) (g : G) :
  exists formattedTable,
    (if justify then fill_table G shuffle COL_WIDTH tableText g
     else Done (tableText, g)) = Done (formattedTable, g)
    /\ map length formattedTable = map length tableText.
Proof.
  destruct justify.
  - rewrite fill_table_plain. eexists. split; [done|].
    rewrite map_map. apply map_ext. intros row. apply length_map.
  - by eexists.
Qed.

Lemma existsb_empty_row_lengths (t t' : list (list str)) :
  map length t = map length t' ->
  existsb is_empty_row t = existsb is_empty_row t'.
Proof.
  revert t'. induction t as [|row rows IH]; intros [|row' rows'] H; try done.
  simpl in *. injection H as Hlen Hrest. rewrite (IH _ Hrest). f_equal.
  unfold is_empty_row. destruct row, row'; done.
Qed.

(** C2, as the code has it: [FormatTable] fails exactly when the table
    has a row without a cell, and the failure is the [IndexError] of
    reading [row[0]]; no error of its own is raised. The table without
    rows gives the empty string. *)
Theorem FormatTable_fails_on_empty_row (tableText : list (list str))
    (ROW_SPACE COL_SPACE COL_WIDTH TABLE_WIDTH : Z) (justify : bool) (g : G) :
  (if existsb is_empty_row tableText
   then FormatTable G shuffle tableText ROW_SPACE COL_SPACE COL_WIDTH
                    TABLE_WIDTH justify g = Raised IndexError
   else exists out,
          FormatTable G shuffle tableText ROW_SPACE COL_SPACE COL_WIDTH
                      TABLE_WIDTH justify g = Done (out, g))
  /\ FormatTable G shuffle [] ROW_SPACE COL_SPACE COL_WIDTH TABLE_WIDTH justify g
     = Done ([], g).
Proof.
  split; [|by destruct justify].
  unfold FormatTable.
  destruct (max_lengths_contiguous tableText) as (n & Hc & Hrows).
  destruct (cap_lengths_ok COL_WIDTH _ n Hc) as (d & -> & Hd). cbn.
  destruct (formatted_table COL_WIDTH tableText justify g) as (ft & -> & Hlen). cbn.
  rewrite <- (existsb_empty_row_lengths ft tableText Hlen).
  assert (Hft : Forall (fun row : list str =>
                          forall i, (i < length row)%nat -> is_Some (d !! i)) ft).
  { assert (Hl : Forall (fun k => k <= n)%nat (map length ft)).
    { rewrite Hlen. by apply Forall_map. }
    apply Forall_map in Hl. eapply Forall_impl; [done|].
    intros row Hrow i Hi. apply Hd. simpl in Hrow. lia. }
  pose proof (rows_loop d ROW_SPACE COL_SPACE ft [] Hft) as Hloop.
  destruct (existsb is_empty_row ft).
  - by rewrite Hloop.
  - destruct Hloop as [ret ->]. cbn. by eexists.
Qed.

(** C10: [TABLE_WIDTH] is never read; two calls that differ in it alone
    give the same result. *)
Theorem FormatTable_ignores_TABLE_WIDTH (tableText : list (list str))
    (ROW_SPACE COL_SPACE COL_WIDTH TABLE_WIDTH TABLE_WIDTH' : Z)
    (justify : bool) (g : G) :
  FormatTable G shuffle tableText ROW_SPACE COL_SPACE COL_WIDTH TABLE_WIDTH justify g
  = FormatTable G shuffle tableText ROW_SPACE COL_SPACE COL_WIDTH TABLE_WIDTH' justify g.
Proof. reflexivity. Qed.

End Table_facts.

(** C2 fails on the code: the empty row surfaces as the index fault of
    [row[0]], after the rows before it were laid out. *)
Lemma FormatTable_empty_row_index_fault :
  FormatTable unit rev_shuffle [[str_of "a"; str_of "bb"]; []] 2 3 30 80 false tt
  = Raised IndexError
  /\ FormatTable unit rev_shuffle [[]] 2 3 30 80 true tt = Raised IndexError.
Proof. split; reflexivity. Qed.

(** ** FormatTable: what [justify] does to the cells *)

Section Table_cells.

Context {G : Type} (shuffle : G -> list nat -> list nat * G).

(** C1, what the code does: with [justify] on, [FormatTable] wraps the
    cell ["a b cc"] at [COL_WIDTH] 4 but does not stretch its first line,
    which stays three characters long; [FillParagraphs] with [justify] on
    makes that line ["a  b"]. *)
Theorem FormatTable_justify_not_forwarded (g : G) :
  FormatTable G shuffle [[str_of "a b cc"]] 2 3 4 80 true g
  = Done (text_of ["a b"; "cc"], g)
  /\ fill_table G shuffle 4 [[str_of "a b cc"]] g
     = Done ([[fill_plain (str_of "a b cc") 4]], g)
  /\ FillParagraphs unit rev_shuffle (str_of "a b cc") 4 true tt
     = Done (text_of ["a  b"; "cc"], tt).
Proof. split_and!; [|apply fill_table_plain|]; reflexivity. Qed.

(** The table of the specification's example, columns one space apart. *)
Example FormatTable_example (g : G) :
  FormatTable G shuffle
    [[str_of "a"; str_of "bb"]; [str_of "ccc"; str_of "d"]] 2 1 30 80 false g
  = Done (text_of ["a   bb"; ""; "ccc d"], g).
Proof. reflexivity. Qed.

End Table_cells.

(** * Further properties of the functions *)

(** ** JustifyLine at its edges *)

Section JustifyLine_edges.

Context {G : Type} (shuffle : G -> list nat -> list nat * G).

(** X1: a line without a word cannot be stretched: for a positive width
    [JustifyLine] raises [IndexError], whatever the shuffle gives; for a
    width of zero or less it returns the empty string. *)
Theorem JustifyLine_no_words (width : Z) (g : G) :
  JustifyLine G shuffle [] width g
  = if 0 <? width then Raised IndexError else Done ([], g).
Proof.
  unfold JustifyLine, JustifyLine_fuel. rewrite while1_S.
  unfold JustifyLine_body. change (len (join [SP] [])) with 0.
  destruct (0 <? width); [|done].
  destruct (shuffle g (seq 0 (Nat.max 1 (length (@nil str) - 1)))) as [[|k i] g'];
    done.
Qed.

End JustifyLine_edges.

(** ** What JustifyLine does to the words *)

Lemma split_ws_from_lead n rest :
  split_ws_from [] (replicate n SP ++ rest) = split_ws_from [] rest.
Proof. induction n as [|n IH]; [done|]. simpl. exact IH. Qed.

Lemma split_ws_stretched line line' :
  Forall (fun w => is_word w = true) line ->
  stretched line line' ->
  split_ws (join [SP] line') = line.
Proof.
  unfold split_ws. intros Hwords Hst. revert Hwords.
  induction Hst as [|w w' r r' [n ->] Hr IH]; intros Hwords; [done|].
  inversion Hwords as [|? ? Hw Hwr]; subst. specialize (IH Hwr).
  destruct r' as [|x r'].
  - inversion Hr; subst. simpl.
    rewrite split_ws_from_trailing by (by apply Forall_replicate).
    by apply split_ws_from_end.
  - rewrite join_cons. rewrite <- app_assoc.
    destruct n as [|n].
    + cbn [replicate app]. rewrite split_ws_from_sep by done. by rewrite IH.
    + cbn [replicate app]. rewrite split_ws_from_sep by done.
      rewrite split_ws_from_lead. cbn [app].
      change (split_ws_from [] (SP :: ?s)) with (split_ws_from [] s).
      by rewrite IH.
Qed.

Section JustifyLine_words.

Context {G : Type} (shuffle : G -> list nat -> list nat * G).
Hypothesis shuffle_perm : forall g l, (shuffle g l).1 ≡ₚ l.

(** X2: [JustifyLine] only adds spaces and never too many: on a line of
    words the result is exactly [width] long when the plain join is
    shorter than that, and splitting the result gives back the words, in
    their order. *)
Theorem JustifyLine_keeps_words (line : list str) (width : Z) (g : G) :
  line <> [] ->
  Forall (fun w => is_word w = true) line ->
  exists s g',
    JustifyLine G shuffle line width g = Done (s, g')
    /\ len s = Z.max width (len (join [SP] line))
    /\ split_ws s = line.
Proof.
  intros Hne Hwords.
  destruct (JustifyLine_spec shuffle shuffle_perm line width g Hne)
    as (line' & g' & Hrun & Hst & Hlen & _).
  exists (join [SP] line'), g'. split_and!; [done..|].
  by apply split_ws_stretched.
Qed.

(** The indices drawn stay below the last word, which comes out as it
    went in. *)
Lemma JustifyLine_loop_last width n : forall (line : list str) (i : list nat) g,
  (2 <= length line)%nat ->
  Forall (fun k => k < length line - 1)%nat i ->
  (Z.to_nat (width - len (join [SP] line)) <= n)%nat ->
  exists line' g',
    while1 (JustifyLine_body G shuffle width) (S n) (line, i, g)
      = Done (join [SP] line', g')
    /\ length line' = length line
    /\ last line' = last line.
Proof.
  induction n as [|n IH]; intros line i g Hlen Hi Hn; rewrite while1_S;
    unfold JustifyLine_body;
    destruct (Z.ltb_spec (len (join [SP] line)) width) as [Hlt|Hge].
  - lia.
  - by exists line, g.
  - set (pool := match i with
                 | [] => shuffle g (seq 0 (Nat.max 1 (length line - 1)))
                 | _ => (i, g)
                 end).
    assert (Hpool : pool.1 <> []
                    /\ Forall (fun k => k < length line - 1)%nat pool.1).
    { subst pool. destruct i as [|k i]; [|done].
      pose proof (shuffle_perm g (seq 0 (Nat.max 1 (length line - 1)))) as Hp.
      split.
      - intros E. rewrite E in Hp. apply Permutation_nil_l in Hp.
        apply (f_equal length) in Hp. rewrite length_seq in Hp. simpl in Hp. lia.
      - rewrite Hp. apply Forall_forall. intros k Hk.
        apply elem_of_seq in Hk. lia. }
    destruct pool as [[|k i'] g1] eqn:Epool; simpl in Hpool; [by destruct Hpool|].
    destruct Hpool as [_ Hpool]. apply Forall_cons in Hpool as [Hk Hi'].
    destruct (lookup_lt_is_Some_2 line k) as [w Hw]; [lia|]. rewrite Hw.
    pose proof (join_insert_snoc [SP] line k w SP Hw) as Hl.
    destruct (IH (<[k := w ++ [SP]]> line) i' g1)
      as (line' & g' & Hrun & Hlen' & Hlast).
    + by rewrite length_insert.
    + by rewrite length_insert.
    + lia.
    + exists line', g'. rewrite length_insert in Hlen'. split_and!; [done..|].
      rewrite Hlast, !last_lookup, length_insert.
      apply list_lookup_insert_ne. lia.
  - by exists line, g.
Qed.

(** X3: on a line of two or more words the last word gets no space, so
    the justified line ends with the last word as it was given. *)
Theorem JustifyLine_last_word_kept (line : list str) (width : Z) (g : G) :
  (2 <= length line)%nat ->
  exists line' g',
    JustifyLine G shuffle line width g = Done (join [SP] line', g')
    /\ length line' = length line
    /\ last line' = last line.
Proof.
  intros Hlen. unfold JustifyLine, JustifyLine_fuel.
  apply JustifyLine_loop_last; [done|done|lia].
Qed.

(** X4: a line of one word has no gap: the spaces go after the word,
    which is padded on the right up to [width]. *)
Theorem JustifyLine_one_word (w : str) (width : Z) (g : G) :
  exists g',
    JustifyLine G shuffle [w] width g
    = Done (w ++ repeat_char SP (width - len w), g').
Proof.
  destruct (JustifyLine_spec shuffle shuffle_perm [w] width g ltac:(done))
    as (line' & g' & Hrun & Hst & Hlen & _).
  exists g'. rewrite Hrun. do 2 f_equal.
  inversion Hst as [|? w' ? r' [n ->] Hr]; subst. inversion Hr; subst.
  simpl in *. f_equal. unfold repeat_char. f_equal.
  rewrite len_app in Hlen. unfold len in Hlen at 2. rewrite length_replicate in Hlen.
  pose proof (len_nonneg w). lia.
Qed.

End JustifyLine_words.

Lemma JustifyLine_keeps_words_witness :
  (forall g l, (rev_shuffle g l).1 ≡ₚ l)
  /\ [str_of "to"; str_of "be"; str_of "or"] <> []
  /\ Forall (fun w => is_word w = true) [str_of "to"; str_of "be"; str_of "or"]
  /\ exists s g',
       JustifyLine unit rev_shuffle [str_of "to"; str_of "be"; str_of "or"] 12 tt
       = Done (s, g')
       /\ len s = 12
       /\ split_ws s = [str_of "to"; str_of "be"; str_of "or"].
Proof.
  assert (Hw : Forall (fun w => is_word w = true)
                      [str_of "to"; str_of "be"; str_of "or"])
    by (by repeat constructor).
  split; [exact rev_shuffle_perm|]. split; [done|]. split; [done|].
  destruct (JustifyLine_keeps_words rev_shuffle rev_shuffle_perm
              [str_of "to"; str_of "be"; str_of "or"] 12 tt ltac:(done) Hw)
    as (s & g' & Hrun & Hlen & Hsplit).
  by exists s, g'.
Defined.

Lemma JustifyLine_last_word_kept_witness :
  (forall g l, (rev_shuffle g l).1 ≡ₚ l)
  /\ (2 <= length [str_of "to"; str_of "be"; str_of "or"])%nat
  /\ exists line' g',
       JustifyLine unit rev_shuffle [str_of "to"; str_of "be"; str_of "or"] 12 tt
       = Done (join [SP] line', g')
       /\ last line' = Some (str_of "or").
Proof.
  split; [exact rev_shuffle_perm|]. split; [simpl; lia|].
  destruct (JustifyLine_last_word_kept rev_shuffle rev_shuffle_perm
              [str_of "to"; str_of "be"; str_of "or"] 12 tt ltac:(simpl; lia))
    as (line' & g' & Hrun & _ & Hlast).
  by exists line', g'.
Defined.

Lemma JustifyLine_one_word_witness :
  (forall g l, (rev_shuffle g l).1 ≡ₚ l)
  /\ exists g',
       JustifyLine unit rev_shuffle [str_of "word"] 7 tt
       = Done (str_of "word   ", g').
Proof.
  split; [exact rev_shuffle_perm|].
  destruct (JustifyLine_one_word rev_shuffle rev_shuffle_perm (str_of "word") 7 tt)
    as [g' Hrun].
  by exists g'.
Defined.

(** ** FillParagraphs changes nothing but the white space *)

Lemma split_ws_from_app_space a b c : forall cur,
  is_space c = true ->
  split_ws_from cur (a ++ c :: b) = split_ws_from cur a ++ split_ws_from [] b.
Proof.
  induction a as [|x a IH]; intros cur Hc; simpl.
  - rewrite Hc. by destruct cur.
  - destruct (is_space x); [destruct cur|]; simpl; by rewrite IH.
Qed.

Lemma split_ws_from_lead_spaces t rest :
  Forall (fun c => is_space c = true) t ->
  split_ws_from [] (t ++ rest) = split_ws_from [] rest.
Proof.
  induction 1 as [|c t Hc _ IH]; [done|]. simpl. by rewrite Hc.
Qed.

Lemma split_ws_join_sep c sep (l : list str) :
  is_space c = true -> Forall (fun x => is_space x = true) sep ->
  split_ws (join (c :: sep) l) = concat (map split_ws l).
Proof.
  intros Hc Hsep. unfold split_ws.
  induction l as [|x [|y r] IH]; [done| |].
  - simpl. by rewrite app_nil_r.
  - rewrite join_cons. cbn [app map concat].
    rewrite split_ws_from_app_space by done.
    rewrite split_ws_from_lead_spaces by done. by rewrite IH.
Qed.

Lemma re_split_words n : forall s cur b,
  (length s <= n)%nat ->
  (b = true -> cur = []) ->
  concat (map split_ws (re_split_from cur b s)) = split_ws (cur ++ s).
Proof.
  unfold split_ws.
  induction n as [|n IH]; intros s cur b Hlen Hb.
  - destruct s; [|simpl in Hlen; lia]. simpl. by rewrite !app_nil_r.
  - destruct s as [|c s]; [simpl; by rewrite !app_nil_r|].
    simpl in Hlen. cbn [re_split_from].
    destruct (b && is_nl c) eqn:Hsep.
    + apply andb_true_iff in Hsep as [-> Hc]. rewrite (Hb eq_refl).
      rewrite IH by (done || lia). simpl. by rewrite (is_nl_is_space c Hc).
    + assert (Hstep : concat (map (split_ws_from []) (re_split_from (cur ++ [c]) false s))
                      = split_ws_from [] (cur ++ c :: s)).
      { rewrite IH by (done || lia). by rewrite <- app_assoc. }
      destruct (is_nl c) eqn:Hc; [|done].
      destruct s as [|c' s']; [done|].
      destruct (is_nl c') eqn:Hc'; [|done].
      cbn [map concat]. simpl in Hlen.
      rewrite IH by (done || lia). cbn [app].
      rewrite split_ws_from_app_space by (by apply is_nl_is_space).
      simpl. by rewrite (is_nl_is_space c' Hc').
Qed.

Lemma paragraphs_words text :
  concat (map words_of (re_split_blank text)) = split_ws text.
Proof.
  unfold re_split_blank.
  pose proof (re_split_words (length text) text [] false) as H.
  cbn [app] in H. rewrite <- H by done.
  f_equal. apply map_ext. intros p. apply split_ws_strip.
Qed.

Lemma plain_lines_words (groups : list (list str)) :
  Forall (Forall (fun w => is_word w = true)) groups ->
  map split_ws (map (join [SP]) groups) = groups.
Proof.
  induction 1 as [|grp groups Hg _ IH]; [done|]. simpl.
  by rewrite split_ws_join, IH.
Qed.

Lemma justified_lines_words width groups ls :
  Forall (Forall (fun w => is_word w = true)) groups ->
  justified width groups ls ->
  map split_ws ls = groups.
Proof.
  intros Hg Hj. induction Hj as [grp|grp line' groups ls Hne Hst Hlen Hj IH].
  - inversion Hg; subst. simpl. by rewrite split_ws_join.
  - inversion Hg; subst. simpl. rewrite (split_ws_stretched grp line') by done.
    by rewrite IH.
Qed.

Lemma filled_words ps (pars : list (list str)) width :
  Forall2 (fun p ls => map split_ws ls = groups_of width p) ps pars ->
  split_ws (join [NL; NL] (map (join [NL]) pars)) = concat (map words_of ps).
Proof.
  intros H. rewrite (split_ws_join_sep NL [NL]) by (by repeat constructor).
  rewrite map_map. f_equal.
  induction H as [|p ls ps pars Hp _ IH]; [done|]. simpl. rewrite IH. f_equal.
  rewrite (split_ws_join_sep NL []) by done. rewrite Hp.
  unfold groups_of. by rewrite break_lines_concat.
Qed.

Section Words_kept.

Context {G : Type} (shuffle : G -> list nat -> list nat * G).
Hypothesis shuffle_perm : forall g l, (shuffle g l).1 ≡ₚ l.

(** X5: filling, justified or not, changes nothing but the white space:
    the words of the output are the words of the text, in their order. *)
Theorem FillParagraphs_keeps_words (text : str) (width : Z) (justify : bool) (g : G) :
  exists out g',
    FillParagraphs G shuffle text width justify g = Done (out, g')
    /\ split_ws out = split_ws text.
Proof.
  rewrite <- paragraphs_words. destruct justify.
  - destruct (fill_lines_justified shuffle shuffle_perm text width g)
      as (pars & g' & _ & Hrun & Hj).
    exists (join [NL; NL] (map (join [NL]) pars)), g'. split; [done|].
    apply (filled_words _ _ width). eapply Forall2_impl; [done|].
    intros p ls Hp. simpl in Hp.
    exact (justified_lines_words width _ _
             (break_lines_words width (words_of p) [] (words_of_words p)) Hp).
  - rewrite FillParagraphs_plain. eexists _, g. split; [done|].
    rewrite <- (map_map (fun p => map (join [SP]) (groups_of width p)) (join [NL])).
    apply (filled_words _ _ width).
    induction (re_split_blank text) as [|p ps IH]; constructor; [|done].
    exact (plain_lines_words _
             (break_lines_words width (words_of p) [] (words_of_words p))).
Qed.

End Words_kept.

Lemma FillParagraphs_keeps_words_witness :
  (forall g l, (rev_shuffle g l).1 ≡ₚ l)
  /\ exists out g',
       FillParagraphs unit rev_shuffle
         (text_of ["  to be  or"; "not"; ""; ""; " to be"]) 6 true tt = Done (out, g')
       /\ split_ws out
          = [str_of "to"; str_of "be"; str_of "or"; str_of "not"; str_of "to";
             str_of "be"].
Proof.
  split; [exact rev_shuffle_perm|].
  destruct (FillParagraphs_keeps_words rev_shuffle rev_shuffle_perm
              (text_of ["  to be  or"; "not"; ""; ""; " to be"]) 6 true tt)
    as (out & g' & Hrun & Hw).
  exists out, g'. split; [done|]. by rewrite Hw.
Defined.

(** ** The lines FillParagraphs forms *)

Lemma break_lines_head width : forall ws x l,
  exists l' rest, break_lines width (x :: l) ws = (x :: l') :: rest.
Proof.
  induction ws as [|w ws IH]; intros x l; simpl; [by eexists _, _|].
  destruct (_ && _); [by eexists _, _|]. apply (IH x (l ++ [w])).
Qed.

Lemma break_lines_greedy width : forall words line k g1 g2,
  break_lines width line words !! k = Some g1 ->
  break_lines width line words !! S k = Some g2 ->
  exists w r, g2 = w :: r /\ g1 <> [] /\ width < len (join [SP] (g1 ++ [w])).
Proof.
  induction words as [|w ws IH]; intros line k g1 g2 H1 H2; [done|].
  simpl in H1, H2.
  destruct ((width <? len (join [SP] (line ++ [w]))) && bool_decide (line <> []))
    eqn:Hclose; [|by eapply IH].
  destruct k as [|k]; [|by eapply IH].
  simpl in H1, H2. injection H1 as <-.
  apply andb_true_iff in Hclose as [Hlt Hne].
  apply Z.ltb_lt in Hlt. apply bool_decide_eq_true in Hne.
  destruct (break_lines_head width ws w []) as (l' & rest & E).
  rewrite E in H2. simpl in H2. injection H2 as <-. by exists w, l'.
Qed.

Section Greedy.

Context {G : Type} (shuffle : G -> list nat -> list nat * G).

(** X6: with [justify] off the lines of a paragraph are its words cut
    into groups, each joined by single spaces, none left out or moved;
    a group of two or more words fits [width]; and every line is full:
    the first word of the next line would not have fitted on it. *)
Theorem fill_paragraph_greedy (width : Z) (paragraph : str) (g : G) :
  exists groups,
    fill_paragraph G shuffle width false paragraph g
    = Done (map (join [SP]) groups, g)
    /\ concat groups = words_of paragraph
    /\ Forall (fun grp => grp = [] \/ (exists w, grp = [w])
                         \/ len (join [SP] grp) <= width) groups
    /\ (forall k g1 g2,
          groups !! k = Some g1 -> groups !! S k = Some g2 ->
          exists w r, g2 = w :: r /\ g1 <> []
                      /\ width < len (join [SP] (g1 ++ [w]))).
Proof.
  exists (groups_of width paragraph). split_and!.
  - apply fill_paragraph_plain.
  - apply (break_lines_concat width (words_of paragraph) []).
  - apply (break_lines_fit width (words_of paragraph) []). by left.
  - apply break_lines_greedy.
Qed.

Hypothesis shuffle_perm : forall g l, (shuffle g l).1 ≡ₚ l.

(** X7: with [justify] on, every line of a paragraph but the last is
    exactly [width] long, unless it is a single word longer than
    [width], which stands as it is. *)
Theorem FillParagraphs_justified_exact (text : str) (width : Z) (g : G) :
  exists pars g',
    fill_lines G shuffle text width true g = Done (pars, g')
    /\ FillParagraphs G shuffle text width true g
       = Done (join [NL; NL] (map (join [NL]) pars), g')
    /\ Forall (fun ls =>
                 Forall (fun l => len l = width
                                  \/ (is_word l = true /\ width < len l))
                        (removelast ls))
              pars.
Proof.
  destruct (fill_lines_justified shuffle shuffle_perm text width g)
    as (pars & g' & H1 & H2 & Hj).
  exists pars, g'. split_and!; [done..|]. clear H1 H2.
  induction Hj as [|p ls ps pars Hp _ IH]; constructor; [|done].
  pose proof (break_lines_fit width (words_of p) [] (or_introl eq_refl)) as Hfit.
  pose proof (break_lines_words width (words_of p) [] (words_of_words p)) as Hwd.
  fold (groups_of width p) in Hfit, Hwd. clear IH.
  induction Hp as [grp|grp line' groups ls Hne Hst Hlen Hj IHj]; [by constructor|].
  inversion Hfit as [|? ? Hg Hfit']; subst.
  inversion Hwd as [|? ? Hw Hwd']; subst.
  pose proof (justified_nonempty _ _ _ Hj).
  destruct ls as [|l ls]; [done|].
  change (removelast (join [SP] line' :: l :: ls))
    with (join [SP] line' :: removelast (l :: ls)).
  constructor; [|by apply IHj].
  destruct (Z.le_gt_cases (len (join [SP] grp)) width) as [Hle|Hgt]; [left; lia|].
  right. destruct Hg as [->|[[w ->]|Hle]]; [done| |lia].
  inversion Hst as [|? w' ? r' [n ->] Hr]; subst. inversion Hr; subst.
  simpl in *. rewrite len_app in Hlen. unfold len in Hlen at 2.
  rewrite length_replicate in Hlen.
  assert (n = 0%nat) as -> by lia. simpl. rewrite app_nil_r.
  split; [by inversion Hw|lia].
Qed.

End Greedy.

Lemma FillParagraphs_justified_exact_witness :
  (forall g l, (rev_shuffle g l).1 ≡ₚ l)
  /\ exists pars g',
       fill_lines unit rev_shuffle
         (text_of ["to be or not to be that is the"; "question"]) 7 true tt
       = Done (pars, g')
       /\ Forall (fun ls =>
                    Forall (fun l => len l = 7 \/ (is_word l = true /\ 7 < len l))
                           (removelast ls))
                 pars.
Proof.
  split; [exact rev_shuffle_perm|].
  destruct (FillParagraphs_justified_exact rev_shuffle rev_shuffle_perm
              (text_of ["to be or not to be that is the"; "question"]) 7 tt)
    as (pars & g' & Hrun & _ & Hex).
  by exists pars, g'.
Defined.

(** ** The lines VertCatString returns *)

Lemma split_nl_no_nl s :
  Forall (Forall (fun c => is_nl c = false)) (split_nl s).
Proof.
  induction s as [|c s IH]; [by repeat constructor|]. simpl.
  destruct (is_nl c) eqn:Hc; [by constructor|].
  destruct (split_nl s) as [|l r]; [by repeat constructor|].
  inversion IH; subst. by repeat constructor.
Qed.

Lemma split_nl_nonempty s : split_nl s <> [].
Proof.
  destruct s as [|c s]; [done|]. simpl.
  destruct (is_nl c); [done|]. by destruct (split_nl s).
Qed.

Lemma vcat_line_no_nl width1 (lines1 lines2 : list str) i :
  Forall (Forall (fun c => is_nl c = false)) lines1 ->
  Forall (Forall (fun c => is_nl c = false)) lines2 ->
  Forall (fun c => is_nl c = false) (vcat_line width1 lines1 lines2 i).
Proof.
  intros H1 H2. unfold vcat_line. rewrite !Forall_app. split_and!.
  - destruct (lines1 !! i) as [l|] eqn:E; simpl.
    + rewrite Forall_forall in H1. apply H1. by eapply list_elem_of_lookup_2.
    + by apply Forall_replicate.
  - by apply Forall_replicate.
  - destruct (lines2 !! i) as [l|] eqn:E; simpl; [|done].
    rewrite Forall_forall in H2. apply H2. by eapply list_elem_of_lookup_2.
Qed.

Lemma vcat_lines string1 width1 string2 :
  split_nl (vcat string1 width1 string2)
  = map (vcat_line (default (block_width (split_nl string1)) width1)
                   (split_nl string1) (split_nl string2))
        (seq 0 (Nat.max (length (split_nl string1)) (length (split_nl string2)))).
Proof.
  unfold vcat. apply split_nl_join.
  - pose proof (split_nl_nonempty string1).
    destruct (split_nl string1); [done|]. simpl. by destruct (length (split_nl string2)).
  - apply Forall_map, Forall_forall. intros i _.
    apply vcat_line_no_nl; apply split_nl_no_nl.
Qed.

Lemma block_width_from (lines1 : list str) : forall a,
  a <= foldl (fun width1 line => Z.max width1 (len line)) a lines1
  /\ Forall (fun l => len l
                      <= foldl (fun width1 line => Z.max width1 (len line)) a lines1)
            lines1.
Proof.
  induction lines1 as [|l r IH]; intros a; simpl; [split; [lia|done]|].
  destruct (IH (Z.max a (len l))) as [Ha Hr]. split; [lia|].
  constructor; [lia|done].
Qed.

Lemma block_width_bound (lines1 : list str) :
  Forall (fun l => len l <= block_width lines1) lines1.
Proof. apply block_width_from. Qed.

(** X8: [VertCatString] raises nothing; its result has as many lines as
    the block with more lines, and line [i] is line [i] of the left block
    (as many spaces as the column is wide once that block has ended),
    padded with spaces up to the width, then line [i] of the right block
    (nothing once that block has ended). *)
Theorem VertCatString_lines (string1 : str) (width1 : option Z) (string2 : str) :
  exists out,
    VertCatString string1 width1 string2 = Done out
    /\ length (split_nl out)
       = Nat.max (length (split_nl string1)) (length (split_nl string2))
    /\ forall i l,
         split_nl out !! i = Some l ->
         let w := default (block_width (split_nl string1)) width1 in
         let l1 := default (repeat_char SP w) (split_nl string1 !! i) in
         let l2 := default [] (split_nl string2 !! i) in
         l = (l1 ++ repeat_char SP (w - len l1)) ++ l2.
Proof.
  exists (vcat string1 width1 string2). split; [apply VertCatString_result|].
  rewrite vcat_lines. split; [by rewrite length_map, length_seq|].
  intros i l Hl. apply list_lookup_fmap_Some in Hl as (j & -> & Hj).
  apply lookup_seq in Hj as [-> _]. done.
Qed.

(** The right block starts at the same column on every line when no line
    of the left block is longer than the width. *)
Lemma vcat_aligned (string1 string2 : str) (width1 : option Z) :
  Forall (fun l => len l <= default (block_width (split_nl string1)) width1)
         (split_nl string1) ->
  forall i l,
    split_nl (vcat string1 width1 string2) !! i = Some l ->
    exists left,
      l = left ++ default [] (split_nl string2 !! i)
      /\ len left = default (block_width (split_nl string1)) width1.
Proof.
  intros Hfit i l Hl. rewrite vcat_lines in Hl.
  apply list_lookup_fmap_Some in Hl as (j & -> & Hj).
  apply lookup_seq in Hj as [-> _]. simpl. unfold vcat_line.
  set (w := default (block_width (split_nl string1)) width1) in *.
  eexists. split; [done|].
  assert (Hw : 0 <= w).
  { pose proof (split_nl_nonempty string1).
    destruct (split_nl string1) as [|x r]; [done|].
    inversion Hfit; subst. pose proof (len_nonneg x). lia. }
  rewrite len_app. unfold repeat_char, len. rewrite length_replicate.
  destruct (split_nl string1 !! i) as [x|] eqn:E; simpl.
  - rewrite Forall_forall in Hfit.
    pose proof (Hfit x (list_elem_of_lookup_2 _ _ _ E)) as Hx. unfold len in Hx. lia.
  - rewrite length_replicate. lia.
Qed.

(** X9: when no line of the left block is longer than the given width,
    every line of the result is a left part exactly [width1] long
    followed by the line of the right block: the right block stands in
    one column. *)
Theorem VertCatString_aligned (string1 string2 : str) (width1 : Z) :
  Forall (fun l => len l <= width1) (split_nl string1) ->
  exists out,
    VertCatString string1 (Some width1) string2 = Done out
    /\ forall i l,
         split_nl out !! i = Some l ->
         exists left,
           l = left ++ default [] (split_nl string2 !! i) /\ len left = width1.
Proof.
  intros Hfit. exists (vcat string1 (Some width1) string2).
  split; [apply VertCatString_result|].
  by apply (vcat_aligned string1 string2 (Some width1)).
Qed.

(** X10: with the width left out the column is as wide as the longest
    line of the left block, and the right block always stands in one
    column. *)
Theorem VertCatString_computed_width_aligned (string1 string2 : str) :
  exists out,
    VertCatString string1 None string2 = Done out
    /\ Forall (fun l => len l <= block_width (split_nl string1)) (split_nl string1)
    /\ forall i l,
         split_nl out !! i = Some l ->
         exists left,
           l = left ++ default [] (split_nl string2 !! i)
           /\ len left = block_width (split_nl string1).
Proof.
  exists (vcat string1 None string2).
  split; [apply VertCatString_result|]. split; [apply block_width_bound|].
  apply (vcat_aligned string1 string2 None). apply block_width_bound.
Qed.

Lemma VertCatString_aligned_witness :
  Forall (fun l => len l <= 4) (split_nl (text_of ["ab"; "abcd"]))
  /\ exists out,
       VertCatString (text_of ["ab"; "abcd"]) (Some 4) (text_of ["x"; "y"; "z"])
       = Done out
       /\ split_nl out = [str_of "ab  x"; str_of "abcdy"; str_of "    z"].
Proof.
  assert (H : Forall (fun l => len l <= 4) (split_nl (text_of ["ab"; "abcd"]))).
  { repeat constructor; unfold len; simpl; lia. }
  split; [done|].
  destruct (VertCatString_aligned (text_of ["ab"; "abcd"]) (text_of ["x"; "y"; "z"])
              4 H) as (out & Hrun & _).
  exists out. split; [done|].
  rewrite VertCatString_result in Hrun. injection Hrun as <-. reflexivity.
Defined.

(** ** FormatTable: the widths of the columns *)

Lemma record_lengths_lookup : forall (lengths : list Z) (k : nat) (d : gmap nat Z) (i : nat),
  record_lengths k lengths d !! i
  = match (if decide (k <= i)%nat then lengths !! (i - k)%nat else None) with
    | Some l => Some (Z.max l (default (-1) (d !! i)))
    | None => d !! i
    end.
Proof.
  induction lengths as [|l ls IH]; intros k d i; simpl.
  - by destruct (decide (k <= i)%nat).
  - rewrite IH. destruct (decide (k <= i)%nat) as [Hk|Hk].
    + destruct (decide (S k <= i)%nat) as [Hs|Hs].
      * replace (i - k)%nat with (S (i - S k)) by lia. simpl.
        by rewrite lookup_insert_ne by lia.
      * assert (i = k) as -> by lia. rewrite Nat.sub_diag. simpl.
        by rewrite lookup_insert_eq.
    + rewrite decide_False by lia. by rewrite lookup_insert_ne by lia.
Qed.

Lemma max_lengths_lookup_from (tableText : list (list str)) i : forall d : gmap nat Z,
  foldl (fun maxlengths row => record_lengths 0 (map len row) maxlengths)
        d tableText !! i
  = column_width_from (d !! i) tableText i.
Proof.
  induction tableText as [|row rows IH]; intros d; [done|].
  simpl. rewrite IH. f_equal. rewrite record_lengths_lookup.
  rewrite decide_True by lia. rewrite Nat.sub_0_r, list_lookup_fmap.
  by destruct (row !! i).
Qed.

Lemma max_lengths_lookup (tableText : list (list str)) i :
  max_lengths tableText !! i = column_width tableText i.
Proof. unfold max_lengths. rewrite max_lengths_lookup_from. by rewrite lookup_empty. Qed.

Lemma cap_loop_lookup COL_WIDTH n : forall k a (d : gmap nat Z),
  contiguous d n -> (a + k <= n)%nat ->
  exists d',
    for_each (fun maxlengths i =>
                v ← getitem maxlengths i;
                Done (<[i := Z.min v COL_WIDTH]> maxlengths))
             (seq a k) d = Done d'
    /\ forall i, d' !! i
                 = if decide (a <= i < a + k)%nat
                   then (fun v => Z.min v COL_WIDTH) <$> d !! i
                   else d !! i.
Proof.
  induction k as [|k IH]; intros a d Hd Hak; simpl.
  - exists d. split; [done|]. intros i. by rewrite decide_False by lia.
  - destruct (proj2 (Hd a)) as [v Hv]; [lia|].
    rewrite (getitem_Some _ _ _ Hv).
    destruct (IH (S a) (<[a := Z.min v COL_WIDTH]> d)) as (d' & Hrun & Hd'); [|lia|].
    { replace n with (Nat.max n (S a)) by lia. apply contiguous_insert; [done|lia]. }
    exists d'. split; [exact Hrun|]. intros i. rewrite Hd'.
    destruct (decide (S a <= i < S a + k)%nat).
    + rewrite decide_True by lia. by rewrite lookup_insert_ne by lia.
    + destruct (decide (i = a)) as [->|Hne].
      * rewrite decide_True by lia. by rewrite lookup_insert_eq, Hv.
      * rewrite decide_False by lia. by rewrite lookup_insert_ne by lia.
Qed.

Lemma cap_lengths_lookup COL_WIDTH (tableText : list (list str)) :
  exists d,
    cap_lengths COL_WIDTH (max_lengths tableText) = Done d
    /\ forall i, d !! i = (fun v => Z.min v COL_WIDTH) <$> column_width tableText i.
Proof.
  destruct (max_lengths_contiguous tableText) as (n & Hc & _).
  unfold cap_lengths. rewrite (contiguous_size _ n Hc).
  destruct (cap_loop_lookup COL_WIDTH n n 0 _ Hc ltac:(lia)) as (d & -> & Hd).
  exists d. split; [done|]. intros i. rewrite Hd, max_lengths_lookup.
  destruct (decide (0 <= i < 0 + n)%nat) as [|Hn]; [done|].
  assert (max_lengths tableText !! i = None) as Hnone.
  { apply eq_None_not_Some. intros H%Hc. lia. }
  rewrite max_lengths_lookup in Hnone. by rewrite Hnone.
Qed.

(** What [column_width] is: the greatest length of an [i]-th cell. *)
Lemma column_width_from_spec (tableText : list (list str)) i : forall a,
  match column_width_from a tableText i with
  | None => a = None /\ Forall (fun row => row !! i = None) tableText
  | Some m =>
      (forall v, a = Some v -> v <= m)
      /\ Forall (fun row => forall cell, row !! i = Some cell -> len cell <= m)
                tableText
      /\ (a = Some m
          \/ Exists (fun row => exists cell, row !! i = Some cell /\ len cell = m)
                    tableText)
  end.
Proof.
  induction tableText as [|row rows IH]; intros a.
  - destruct a as [v|]; [|done]. cbn. split_and!; [by intros ? [= ->]|done|by left].
  - unfold column_width_from in *. cbn [foldl].
    set (a' := match row !! i with
               | Some cell => Some (Z.max (len cell) (default (-1) a))
               | None => a
               end).
    specialize (IH a'). destruct (foldl _ a' rows) as [m|].
    + destruct IH as (Ha & Hrows & Hex). subst a'.
      destruct (row !! i) as [cell|] eqn:Hcell.
      * pose proof (Ha _ eq_refl) as Hm. pose proof (len_nonneg cell) as Hc.
        split_and!.
        -- intros v ->. simpl in Hm. lia.
        -- constructor; [|done]. intros c Hcx.
           assert (c = cell) as -> by congruence. lia.
        -- destruct Hex as [Hm'|Hex]; [|right; by constructor 2].
           injection Hm' as Hm'.
           destruct (decide (len cell = m)) as [Hlen|Hlen].
           ++ right. constructor. by exists cell.
           ++ left. destruct a as [v|]; simpl in *; [f_equal|]; lia.
      * split_and!; [done|constructor; [intros c Hcx; congruence|done]|].
        destruct Hex as [Hex|Hex]; [by left|right; by constructor 2].
    + destruct IH as [Ha Hrows]. subst a'.
      destruct (row !! i) eqn:Hcell; [done|]. split; [done|]. by constructor.
Qed.

(** X11: the width [FormatTable] keeps for column [i] is the length of
    the longest [i]-th cell of the rows, cut down to [COL_WIDTH]; a
    column that no row reaches has no width; the loop that cuts the
    widths down finds every key it reads. *)
Theorem FormatTable_column_widths (tableText : list (list str)) (COL_WIDTH : Z) :
  exists maxlengths,
    cap_lengths COL_WIDTH (max_lengths tableText) = Done maxlengths
    /\ forall i,
         match maxlengths !! i with
         | None => Forall (fun row => row !! i = None) tableText
         | Some v =>
             exists m,
               v = Z.min m COL_WIDTH
               /\ Forall (fun row => forall cell,
                            row !! i = Some cell -> len cell <= m) tableText
               /\ Exists (fun row => exists cell,
                            row !! i = Some cell /\ len cell = m) tableText
         end.
Proof.
  destruct (cap_lengths_lookup COL_WIDTH tableText) as (d & Hrun & Hd).
  exists d. split; [done|]. intros i. rewrite Hd.
  pose proof (column_width_from_spec tableText i None) as Hspec.
  fold (column_width tableText i) in Hspec.
  destruct (column_width tableText i) as [m|]; simpl.
  - destruct Hspec as (_ & Hle & [Hex|Hex]); [done|]. by exists m.
  - by destruct Hspec.
Qed.

(** ** FormatTable: rows of one-line cells *)

Lemma vcat_single (string1 string2 : str) (width1 : Z) :
  Forall (fun c => is_nl c = false) string1 ->
  Forall (fun c => is_nl c = false) string2 ->
  vcat string1 (Some width1) string2
  = string1 ++ repeat_char SP (width1 - len string1) ++ string2.
Proof.
  intros H1 H2. unfold vcat.
  rewrite (split_nl_line string1), (split_nl_line string2) by done.
  simpl. unfold vcat_line. simpl. by rewrite <- app_assoc.
Qed.

Lemma len_repeat_char c n : len (repeat_char c n) = Z.max 0 n.
Proof. unfold len, repeat_char. rewrite length_replicate. lia. Qed.

Lemma render_row_cons widths COL_SPACE i cell cell' r :
  render_row widths COL_SPACE i (cell :: cell' :: r)
  = cell ++ repeat_char SP (widths i - len cell) ++ repeat_char SP COL_SPACE
         ++ render_row widths COL_SPACE (S i) (cell' :: r).
Proof. reflexivity. Qed.

Lemma format_row_loop_render (d : gmap nat Z) COL_SPACE (row : list str) :
  0 <= COL_SPACE ->
  Forall (Forall (fun c => is_nl c = false)) row ->
  (forall i cell, row !! i = Some cell ->
                  exists v, d !! i = Some v /\ len cell <= v) ->
  forall r k P cell width,
    row !! k = Some cell ->
    drop (S k) row = r ->
    Forall (fun c => is_nl c = false) P ->
    len P + default 0 (d !! k) = width ->
    exists width',
      for_each (add_column d COL_SPACE row) (seq (S k) (length r)) (P ++ cell, width)
      = Done (P ++ render_row (fun i => default 0 (d !! i)) COL_SPACE k (cell :: r),
              width').
Proof.
  intros Hcs Hrow Hd. induction r as [|cell' r IH];
    intros k P cell width Hcell Hdrop HP Hwidth.
  - by exists width.
  - assert (Hcell' : row !! S k = Some cell').
    { pose proof (lookup_drop row (S k) 0) as H. rewrite Hdrop in H.
      simpl in H. by rewrite Nat.add_0_r in H. }
    assert (Hdrop' : drop (S (S k)) row = r).
    { pose proof (drop_drop row 1 (S k)) as H. rewrite Hdrop in H. simpl in H.
      rewrite drop_0 in H. rewrite H. f_equal. lia. }
    destruct (Hd k cell Hcell) as (v & Hv & Hlen).
    destruct (Hd (S k) cell' Hcell') as (v' & Hv' & Hlen').
    rewrite Hv in Hwidth. simpl in Hwidth.
    assert (Hnl : Forall (fun c => is_nl c = false) cell).
    { rewrite Forall_forall in Hrow. apply Hrow. by eapply list_elem_of_lookup_2. }
    assert (Hnl' : Forall (fun c => is_nl c = false) cell').
    { rewrite Forall_forall in Hrow. apply Hrow. by eapply list_elem_of_lookup_2. }
    cbn [length seq for_each].
    rewrite (add_column_ok _ _ _ _ _ _ _ _ Hcell' Hv'), bind_Done.
    rewrite (vcat_single (P ++ cell)); [|by apply Forall_app|by apply Forall_replicate].
    set (P' := (P ++ cell) ++ repeat_char SP (width - len (P ++ cell))
                 ++ repeat_char SP COL_SPACE).
    assert (HP' : Forall (fun c => is_nl c = false) P').
    { subst P'. rewrite !Forall_app. split_and!; [done..| |];
        by apply Forall_replicate. }
    assert (HlenP' : len P' = width + COL_SPACE).
    { subst P'. rewrite !len_app, !len_repeat_char.
      pose proof (len_nonneg cell). lia. }
    rewrite (vcat_single P') by done.
    replace (width + COL_SPACE - len P') with 0 by lia.
    change (repeat_char SP 0) with (@nil ascii). cbn [app].
    destruct (IH (S k) P' cell' (width + COL_SPACE + v')) as (width' & Hrun);
      [done..|by rewrite Hv'; simpl; lia|].
    exists width'. rewrite Hrun. f_equal. f_equal.
    rewrite render_row_cons. cbn beta. rewrite Hv. simpl default.
    subst P'. rewrite len_app. rewrite <- !app_assoc.
    do 3 f_equal. f_equal. lia.
Qed.

Lemma format_row_render (d : gmap nat Z) COL_SPACE (row : list str) :
  0 <= COL_SPACE ->
  row <> [] ->
  Forall (Forall (fun c => is_nl c = false)) row ->
  (forall i cell, row !! i = Some cell ->
                  exists v, d !! i = Some v /\ len cell <= v) ->
  format_row d COL_SPACE row
  = Done (render_row (fun i => default 0 (d !! i)) COL_SPACE 0 row).
Proof.
  intros Hcs Hne Hrow Hd. destruct row as [|cell r]; [done|].
  destruct (Hd 0%nat cell eq_refl) as (v & Hv & Hlen).
  destruct (format_row_loop_render d COL_SPACE (cell :: r) Hcs Hrow Hd
              r 0%nat [] cell v eq_refl eq_refl ltac:(done))
    as (width' & Hrun); [by rewrite Hv|].
  unfold format_row.
  rewrite (index_Some (cell :: r) 0 cell eq_refl), bind_Done.
  rewrite (getitem_Some _ _ _ Hv), bind_Done.
  replace (length (cell :: r) - 1)%nat with (length r) by (simpl; lia).
  cbn [app] in Hrun. by rewrite Hrun, bind_Done.
Qed.

Lemma render_row_ext w1 w2 COL_SPACE (cells : list str) :
  (forall j, w1 j = w2 j) ->
  forall i, render_row w1 COL_SPACE i cells = render_row w2 COL_SPACE i cells.
Proof.
  intros E. induction cells as [|cell r IH]; intros i; [done|].
  destruct r as [|cell' r]; [done|].
  rewrite !render_row_cons, E. by rewrite IH.
Qed.

Lemma column_width_covers (tableText : list (list str)) row i cell :
  row ∈ tableText -> row !! i = Some cell ->
  exists m, column_width tableText i = Some m /\ len cell <= m.
Proof.
  intros Hrow Hcell.
  pose proof (column_width_from_spec tableText i None) as Hspec.
  fold (column_width tableText i) in Hspec.
  destruct (column_width tableText i) as [m|].
  - destruct Hspec as (_ & Hle & _). exists m. split; [done|].
    rewrite Forall_forall in Hle. by apply (Hle row Hrow).
  - destruct Hspec as [_ Hnone]. rewrite Forall_forall in Hnone.
    specialize (Hnone row Hrow). congruence.
Qed.

Lemma capped_widths (tableText : list (list str)) COL_WIDTH (d : gmap nat Z) :
  Forall (Forall (short_cell COL_WIDTH)) tableText ->
  (forall i, d !! i = (fun v => Z.min v COL_WIDTH) <$> column_width tableText i) ->
  forall i, d !! i = column_width tableText i.
Proof.
  intros Hshort Hd i. rewrite Hd.
  pose proof (column_width_from_spec tableText i None) as Hspec.
  fold (column_width tableText i) in Hspec.
  destruct (column_width tableText i) as [m|]; [|done]. simpl.
  destruct Hspec as (_ & _ & [?|Hex]); [done|].
  apply Exists_exists in Hex as (row & Hrow & cell & Hcell & Hlen).
  rewrite Forall_forall in Hshort. specialize (Hshort row Hrow).
  rewrite Forall_forall in Hshort. destruct (Hshort cell) as [_ Hle].
  { by eapply list_elem_of_lookup_2. }
  f_equal. lia.
Qed.

Lemma format_rows_render (d : gmap nat Z) ROW_SPACE COL_SPACE
    (rows : list (list str)) :
  0 <= COL_SPACE ->
  Forall (fun row =>
            row <> []
            /\ Forall (Forall (fun c => is_nl c = false)) row
            /\ forall i cell, row !! i = Some cell ->
                              exists v, d !! i = Some v /\ len cell <= v) rows ->
  forall acc,
    for_each (fun retTableText row =>
                rowtext ← format_row d COL_SPACE row;
                Done (retTableText ++ rowtext ++ repeat_char NL ROW_SPACE))
             rows acc
    = Done (acc ++ concat (map (fun row =>
                                  render_row (fun i => default 0 (d !! i))
                                             COL_SPACE 0 row
                                  ++ repeat_char NL ROW_SPACE) rows)).
Proof.
  intros Hcs. induction 1 as [|row rows (Hne & Hnl & Hd) _ IH]; intros acc.
  - by rewrite app_nil_r.
  - cbn [for_each map concat].
    rewrite (format_row_render d COL_SPACE row Hcs Hne Hnl Hd), !bind_Done.
    rewrite IH. by rewrite <- !app_assoc.
Qed.

Lemma rstrip_nl_newlines k : forall s,
  rstrip_nl (s ++ repeat_char NL k) = rstrip_nl s.
Proof.
  unfold rstrip_nl, repeat_char. induction (Z.to_nat k) as [|n IH]; intros s.
  - by rewrite app_nil_r.
  - change (s ++ replicate (S n) NL) with (s ++ [NL] ++ replicate n NL).
    rewrite app_assoc, IH, rev_app_distr. done.
Qed.

Lemma concat_join (sep : str) (f : list str -> str) (rows : list (list str)) :
  rows <> [] ->
  concat (map (fun row => f row ++ sep) rows) = join sep (map f rows) ++ sep.
Proof.
  intros Hne. induction rows as [|row rows IH]; [done|].
  destruct rows as [|row' rows].
  - simpl. by rewrite app_nil_r.
  - cbn [map concat]. cbn [map concat] in IH. rewrite IH by done.
    rewrite join_cons. by rewrite <- !app_assoc.
Qed.

Section Table_layout.

Context {G : Type} (shuffle : G -> list nat -> list nat * G).

(** X12: a table of one-line cells, none longer than [COL_WIDTH], in rows
    that all have a cell, laid out without filling: every row is its
    cells, each but the last of the row padded with spaces to the length
    of the longest cell of its column and followed by [COL_SPACE]
    spaces; the rows are joined by [ROW_SPACE] newlines and the newlines
    at the end of the whole are dropped. Nothing is raised. *)
Theorem FormatTable_short_cells (tableText : list (list str))
    (ROW_SPACE COL_SPACE COL_WIDTH TABLE_WIDTH : Z) (g : G) :
  0 <= COL_SPACE ->
  Forall (fun row => row <> []) tableText ->
  Forall (Forall (short_cell COL_WIDTH)) tableText ->
  FormatTable G shuffle tableText ROW_SPACE COL_SPACE COL_WIDTH TABLE_WIDTH false g
  = Done (rstrip_nl
            (join (repeat_char NL ROW_SPACE)
                  (map (render_row (table_widths tableText) COL_SPACE 0)
                       tableText)), g).
Proof.
  intros Hcs Hne Hshort. unfold FormatTable.
  destruct (cap_lengths_lookup COL_WIDTH tableText) as (d & -> & Hd).
  rewrite !bind_Done.
  pose proof (capped_widths tableText COL_WIDTH d Hshort Hd) as Hw.
  rewrite (format_rows_render d ROW_SPACE COL_SPACE tableText Hcs), bind_Done.
  - f_equal. f_equal. cbn [app].
    destruct (decide (tableText = [])) as [->|Hrows]; [done|].
    rewrite (concat_join _ (render_row (fun i => default 0 (d !! i)) COL_SPACE 0))
      by done.
    rewrite rstrip_nl_newlines. do 2 f_equal.
    apply map_ext. intros row. apply render_row_ext.
    intros j. unfold table_widths. by rewrite Hw.
  - apply Forall_forall. intros row Hrow.
    rewrite Forall_forall in Hne. rewrite Forall_forall in Hshort.
    split_and!; [by apply Hne| |].
    + eapply Forall_impl; [exact (Hshort row Hrow)|]. by intros cell [? _].
    + intros i cell Hcell. rewrite Hw. by eapply column_width_covers.
Qed.

End Table_layout.

Lemma FormatTable_short_cells_witness :
  FormatTable unit rev_shuffle
    [[str_of "a"; str_of "bb"]; [str_of "ccc"; str_of "d"]] 2 1 30 80 false tt
  = Done (text_of ["a   bb"; ""; "ccc d"], tt).
Proof.
  rewrite (FormatTable_short_cells rev_shuffle); [reflexivity|lia| |].
  - repeat constructor; done.
  - repeat constructor; vm_compute; congruence.
Defined.

(** ** FormatTable: the columns line up *)

Lemma render_row_cell widths COL_SPACE (cells : list str) :
  0 <= COL_SPACE ->
  forall i k cell,
    cells !! k = Some cell ->
    (forall j c, cells !! j = Some c -> len c <= widths (i + j)%nat) ->
    exists pre post,
      render_row widths COL_SPACE i cells = pre ++ cell ++ post
      /\ len pre = column_offset widths COL_SPACE (i + k)
                   - column_offset widths COL_SPACE i.
Proof.
  intros Hcs. induction cells as [|c0 r IH]; intros i k cell Hk Hfit; [done|].
  destruct k as [|k].
  - injection Hk as ->. exists []. rewrite Nat.add_0_r.
    destruct r as [|c1 r].
    + exists []. split; [by rewrite app_nil_r|]. unfold len. simpl. lia.
    + eexists. rewrite render_row_cons. split; [done|]. unfold len. simpl. lia.
  - simpl in Hk. destruct r as [|c1 r]; [done|].
    destruct (IH (S i) k cell Hk) as (pre & post & E & Hpre).
    { intros j c Hj. replace (S i + j)%nat with (i + S j)%nat by lia.
      by apply Hfit. }
    exists (c0 ++ repeat_char SP (widths i - len c0) ++ repeat_char SP COL_SPACE
               ++ pre), post.
    rewrite render_row_cons, E. split; [by rewrite <- !app_assoc|].
    rewrite !len_app, !len_repeat_char, Hpre.
    pose proof (Hfit 0%nat c0 eq_refl) as H0. rewrite Nat.add_0_r in H0.
    replace (i + S k)%nat with (S i + k)%nat by lia. simpl. lia.
Qed.

Lemma render_row_one_line widths COL_SPACE (cells : list str) :
  Forall (Forall (fun c => is_nl c = false)) cells ->
  forall i, Forall (fun c => is_nl c = false) (render_row widths COL_SPACE i cells).
Proof.
  induction 1 as [|c0 r H0 Hr IH]; intros i; [done|].
  destruct r as [|c1 r]; [done|].
  rewrite render_row_cons, !Forall_app.
  split_and!; [done|by apply Forall_replicate..|apply IH].
Qed.

(** X13: in a table of one-line cells, none longer than [COL_WIDTH], the
    columns line up: the text of a row is one line, and cell [k] of any
    row starts in it at the same place, after the widths of the columns
    before it and [COL_SPACE] spaces for each. *)
Theorem FormatTable_columns_aligned (tableText : list (list str))
    (COL_SPACE COL_WIDTH : Z) :
  0 <= COL_SPACE ->
  Forall (Forall (short_cell COL_WIDTH)) tableText ->
  exists maxlengths,
    cap_lengths COL_WIDTH (max_lengths tableText) = Done maxlengths
    /\ forall row k cell,
         row ∈ tableText -> row !! k = Some cell ->
         exists pre post,
           format_row maxlengths COL_SPACE row = Done (pre ++ cell ++ post)
           /\ len pre = column_offset (table_widths tableText) COL_SPACE k
           /\ Forall (fun c => is_nl c = false) (pre ++ cell ++ post).
Proof.
  intros Hcs Hshort.
  destruct (cap_lengths_lookup COL_WIDTH tableText) as (d & Hrun & Hd).
  pose proof (capped_widths tableText COL_WIDTH d Hshort Hd) as Hw.
  exists d. split; [done|]. intros row k cell Hrow Hk.
  assert (Hnl : Forall (Forall (fun c => is_nl c = false)) row).
  { rewrite Forall_forall in Hshort.
    eapply Forall_impl; [exact (Hshort row Hrow)|]. by intros c [? _]. }
  assert (Hfit : forall i c, row !! i = Some c ->
                             exists v, d !! i = Some v /\ len c <= v).
  { intros i c Hc. rewrite Hw. by eapply column_width_covers. }
  rewrite (format_row_render d COL_SPACE row Hcs) by (done || by intros ->).
  rewrite (render_row_ext _ (table_widths tableText))
    by (intros j; unfold table_widths; by rewrite Hw).
  destruct (render_row_cell (table_widths tableText) COL_SPACE row Hcs 0 k cell Hk)
    as (pre & post & E & Hpre).
  { intros j c Hc. destruct (column_width_covers tableText row j c Hrow Hc)
      as (m & Hm & Hle). unfold table_widths. simpl. by rewrite Hm. }
  exists pre, post. rewrite <- E. split_and!; [done|simpl in Hpre; lia|].
  by apply render_row_one_line.
Qed.

Lemma FormatTable_columns_aligned_witness :
  exists maxlengths,
    cap_lengths 30 (max_lengths [[str_of "a"; str_of "bb"]; [str_of "ccc"; str_of "d"]])
    = Done maxlengths
    /\ forall row k cell,
         row ∈ [[str_of "a"; str_of "bb"]; [str_of "ccc"; str_of "d"]] ->
         row !! k = Some cell ->
         exists pre post,
           format_row maxlengths 1 row = Done (pre ++ cell ++ post)
           /\ len pre
              = column_offset
                  (table_widths [[str_of "a"; str_of "bb"]; [str_of "ccc"; str_of "d"]])
                  1 k
           /\ Forall (fun c => is_nl c = false) (pre ++ cell ++ post).
Proof.
  apply (FormatTable_columns_aligned _ 1 30); [lia|].
  repeat constructor; vm_compute; congruence.
Defined.

(** ** OffsetText: the lines of the text, indented *)

Lemma split_nl_lead pad s :
  Forall (fun c => is_nl c = false) pad ->
  split_nl (pad ++ s)
  = match split_nl s with l :: ls => (pad ++ l) :: ls | [] => [] end.
Proof.
  induction 1 as [|c pad Hc _ IH]; simpl.
  - by destruct (split_nl s).
  - rewrite Hc, IH. destruct (split_nl s) as [|l ls] eqn:E; [|done].
    by destruct (split_nl_nonempty s).
Qed.

Lemma split_nl_after_newlines pad s :
  Forall (fun c => is_nl c = false) pad ->
  split_nl (after_newlines pad s)
  = match split_nl s with l :: ls => l :: map (app pad) ls | [] => [] end.
Proof.
  intros Hpad. induction s as [|c s IH]; [done|]. simpl.
  destruct (is_nl c) eqn:Hc; simpl; rewrite Hc.
  - rewrite split_nl_lead, IH by done. by destruct (split_nl s).
  - rewrite IH. by destruct (split_nl s).
Qed.

Lemma spaces_no_nl n : Forall (fun c => is_nl c = false) (repeat_char SP n).
Proof. by apply Forall_replicate. Qed.

Lemma spaces_space n : Forall (fun c => is_space c = true) (repeat_char SP n).
Proof. by apply Forall_replicate. Qed.

Lemma split_nl_indented pad c s :
  Forall (fun c => is_nl c = false) pad -> is_nl c = false ->
  split_nl (re_sub_line_starts pad (c :: s)) = map (app pad) (split_nl (c :: s)).
Proof.
  intros Hpad Hc. unfold re_sub_line_starts.
  rewrite split_nl_lead by done. simpl. rewrite Hc.
  rewrite split_nl_after_newlines by done.
  destruct (split_nl s) as [|l ls] eqn:E; [|done].
  by destruct (split_nl_nonempty s).
Qed.

(** X14: [OffsetText] puts [indent] spaces before every line of the
    text, with one exception: when the text begins with a newline, its
    second line is left as it is (the empty first line gets the spaces). *)
Theorem OffsetText_lines (text : str) (indent : Z) :
  split_nl (OffsetText text indent)
  = match split_nl text with
    | [] :: l :: ls =>
        repeat_char SP indent :: l :: map (app (repeat_char SP indent)) ls
    | ls => map (app (repeat_char SP indent)) ls
    end.
Proof.
  unfold OffsetText. pose proof (spaces_no_nl indent) as Hpad.
  destruct text as [|c s].
  - unfold re_sub_line_starts. rewrite app_nil_r.
    rewrite split_nl_line by done. simpl. by rewrite app_nil_r.
  - destruct (is_nl c) eqn:Hc.
    + unfold re_sub_line_starts. apply bool_decide_eq_true in Hc as ->.
      rewrite split_nl_app, split_nl_after_newlines by done.
      change (split_nl (NL :: s)) with ([] :: split_nl s).
      destruct (split_nl s) as [|l ls] eqn:E; [|done].
      by destruct (split_nl_nonempty s).
    + rewrite split_nl_indented by done. simpl. rewrite Hc.
      by destruct (split_nl s).
Qed.

(** ** IndentParagraphs: the filled text, indented *)

Lemma split_ws_after_newlines pad s :
  Forall (fun c => is_space c = true) pad ->
  forall cur, split_ws_from cur (after_newlines pad s) = split_ws_from cur s.
Proof.
  intros Hpad. induction s as [|c s IH]; intros cur; [done|]. simpl.
  destruct (is_nl c) eqn:Hc.
  - pose proof (is_nl_is_space c Hc) as Hs. simpl. rewrite Hs.
    rewrite split_ws_from_lead_spaces, IH by done. done.
  - simpl. destruct (is_space c); [destruct cur|]; by rewrite IH.
Qed.

Lemma split_ws_line_starts pad s :
  Forall (fun c => is_space c = true) pad ->
  split_ws (re_sub_line_starts pad s) = split_ws s.
Proof.
  intros Hpad. unfold split_ws, re_sub_line_starts.
  rewrite split_ws_from_lead_spaces by done.
  destruct s as [|c s]; [done|].
  simpl. destruct (is_space c); by rewrite split_ws_after_newlines.
Qed.

Lemma rstrip_ws_suffix s :
  exists t, Forall (fun c => is_space c = true) t /\ s = rstrip_ws s ++ t.
Proof.
  destruct (lstrip_prefix (rev s)) as (t & Ht & E).
  exists (rev t). split.
  - apply Forall_forall. intros c Hc. rewrite Forall_forall in Ht. apply Ht.
    apply list_elem_of_In in Hc. apply list_elem_of_In. by apply in_rev.
  - unfold rstrip_ws. rewrite <- rev_app_distr, <- E. by rewrite rev_involutive.
Qed.

Lemma split_ws_rstrip s : split_ws (rstrip_ws s) = split_ws s.
Proof.
  destruct (rstrip_ws_suffix s) as (t & Ht & E). unfold split_ws.
  rewrite E at 2. symmetry. by apply split_ws_from_trailing.
Qed.

Lemma lstrip_head s c : head (lstrip s) = Some c -> is_space c = false.
Proof.
  induction s as [|x s IH]; [done|]. simpl.
  destruct (is_space x) eqn:Hx; [done|]. simpl. by intros [= <-].
Qed.

Lemma rstrip_ws_last s c : last (rstrip_ws s) = Some c -> is_space c = false.
Proof.
  unfold rstrip_ws. intros H. apply (lstrip_head (rev s)).
  destruct (lstrip (rev s)) as [|x l]; [done|].
  simpl in H. rewrite last_snoc in H. done.
Qed.

Lemma rstrip_ws_solid s c : is_space c = false -> rstrip_ws (s ++ [c]) = s ++ [c].
Proof.
  intros Hc. unfold rstrip_ws. rewrite rev_app_distr. simpl. rewrite Hc.
  simpl. by rewrite rev_involutive.
Qed.

Lemma after_newlines_snoc pad s c :
  is_nl c = false -> after_newlines pad (s ++ [c]) = after_newlines pad s ++ [c].
Proof.
  intros Hc. induction s as [|x s IH]; simpl; [by rewrite Hc|].
  destruct (is_nl x); rewrite IH; [|done]. simpl. by rewrite <- app_assoc.
Qed.

Lemma re_sub_line_starts_snoc pad s c :
  is_nl c = false ->
  re_sub_line_starts pad (s ++ [c]) = re_sub_line_starts pad s ++ [c].
Proof.
  intros Hc. unfold re_sub_line_starts. destruct s as [|x s]; simpl.
  - by rewrite app_nil_r.
  - rewrite after_newlines_snoc by done. by rewrite <- app_assoc.
Qed.

Lemma join_last sep (l : list str) x :
  last l = Some x -> exists pre, join sep l = pre ++ x.
Proof.
  induction l as [|y [|z r] IH]; [done| |]; intros H.
  - injection H as ->. by exists [].
  - destruct (IH H) as [pre E]. exists (y ++ sep ++ pre).
    rewrite join_cons, E. by rewrite <- !app_assoc.
Qed.

Lemma join_ends sep (l : list str) x :
  last l = Some x ->
  (exists s c, x = s ++ [c] /\ is_space c = false) ->
  exists s c, join sep l = s ++ [c] /\ is_space c = false.
Proof.
  intros Hl (s & c & -> & Hc). destruct (join_last sep l _ Hl) as [pre ->].
  exists (pre ++ s), c. by rewrite app_assoc.
Qed.

Lemma word_end w :
  is_word w = true -> exists s c, w = s ++ [c] /\ is_space c = false.
Proof.
  intros [Hne Hw]%is_word_spec.
  destruct (exists_last Hne) as (s & c & ->).
  apply Forall_app in Hw as [_ Hc]. inversion Hc; subst. by exists s, c.
Qed.

Lemma last_group_line (groups : list (list str)) :
  groups <> [] ->
  Forall (fun grp => grp <> [] /\ Forall (fun w => is_word w = true) grp) groups ->
  exists x, last (map (join [SP]) groups) = Some x
            /\ exists s c, x = s ++ [c] /\ is_space c = false.
Proof.
  intros Hne Hg. induction Hg as [|grp [|grp' r] [Hn Hw] Hr IH]; [done| |].
  - exists (join [SP] grp). split; [done|].
    destruct (exists_last Hn) as (grp0 & w & ->).
    apply (join_ends [SP] (grp0 ++ [w]) w); [by rewrite last_snoc|].
    apply word_end. apply Forall_app in Hw as [_ Hw]. by inversion Hw.
  - destruct IH as (x & Hx & Hend); [done|]. by exists x.
Qed.

Lemma Forall2_last_rel {A B} (R : A -> B -> Prop) l k x :
  Forall2 R l k -> last l = Some x -> exists y, last k = Some y /\ R x y.
Proof.
  induction 1 as [|a b l k Hab Hlk IH]; [done|]. intros Hx.
  destruct Hlk as [|a' b' l k Hab' Hlk].
  - injection Hx as <-. by exists b.
  - apply IH in Hx as (y & Hy & Hxy). by exists y.
Qed.

Section Indent.

Context {G : Type} (shuffle : G -> list nat -> list nat * G).
Hypothesis shuffle_perm : forall g l, (shuffle g l).1 ≡ₚ l.

Lemma fill_result text width justify (g : G) :
  exists pars g',
    FillParagraphs G shuffle text width justify g
    = Done (join [NL; NL] (map (join [NL]) pars), g')
    /\ Forall2 (fun p ls =>
                  lines_match p ls
                  /\ map split_ws ls = groups_of width p
                  /\ last ls = last (map (join [SP]) (groups_of width p)))
               (re_split_blank text) pars.
Proof.
  destruct justify.
  - destruct (fill_lines_justified shuffle shuffle_perm text width g)
      as (pars & g' & _ & Hrun & Hj).
    exists pars, g'. split; [done|]. eapply Forall2_impl; [done|].
    intros p ls Hp. simpl in Hp. split_and!.
    + by eapply justified_lines_match.
    + exact (justified_lines_words width _ _
               (break_lines_words width (words_of p) [] (words_of_words p)) Hp).
    + by eapply justified_last_line.
  - rewrite FillParagraphs_plain.
    exists (map (fun p => map (join [SP]) (groups_of width p)) (re_split_blank text)), g.
    split; [by rewrite map_map|].
    induction (re_split_blank text) as [|p ps IH]; constructor; [|done].
    split_and!; [apply plain_lines_match| |done].
    exact (plain_lines_words _
             (break_lines_words width (words_of p) [] (words_of_words p))).
Qed.

(** X15: [IndentParagraphs] returns for every text, width and indent,
    justified or not; the words of its result are the words of the text,
    in their order; and the result does not end with white space. *)
Theorem IndentParagraphs_keeps_words (text : str) (width indent : Z)
    (justify : bool) (g : G) :
  exists ret g',
    IndentParagraphs G shuffle text width indent justify g = Done (ret, g')
    /\ split_ws ret = split_ws text
    /\ forall c, last ret = Some c -> is_space c = false.
Proof.
  destruct (fill_result text width justify g) as (pars & g' & Hrun & HR).
  unfold IndentParagraphs. rewrite Hrun, bind_Done. cbn beta iota zeta.
  eexists _, g'. split; [done|]. split.
  - rewrite split_ws_rstrip, split_ws_line_starts by apply spaces_space.
    rewrite <- (paragraphs_words text). apply (filled_words _ _ width).
    eapply Forall2_impl; [done|]. by intros p ls (_ & ? & _).
  - apply rstrip_ws_last.
Qed.

(** X16: when the first and the last paragraph of the text have a word,
    the lines [IndentParagraphs] returns are the lines [FillParagraphs]
    returns, each after [indent] spaces; nothing else is added and
    nothing is taken away. *)
Theorem IndentParagraphs_lines (text : str) (width indent : Z)
    (justify : bool) (g : G) :
  is_blank (default [] (head (re_split_blank text))) = false ->
  is_blank (default [] (last (re_split_blank text))) = false ->
  exists out ret g',
    FillParagraphs G shuffle text width justify g = Done (out, g')
    /\ IndentParagraphs G shuffle text width indent justify g = Done (ret, g')
    /\ split_nl ret = map (app (repeat_char SP indent)) (split_nl out).
Proof.
  intros Hfirst Hlast.
  destruct (fill_result text width justify g) as (pars & g' & Hrun & HR).
  set (out := join [NL; NL] (map (join [NL]) pars)) in *.
  assert (Hhead : exists c x, out = c :: x /\ is_nl c = false).
  { destruct HR as [|p ls ps pars' (Hm & _ & _) _]; [done|].
    simpl in Hfirst. unfold lines_match in Hm. rewrite Hfirst in Hm.
    destruct Hm as [Hne Hsolid].
    destruct (join_solid_head ls Hne Hsolid) as (c & x & E & Hc).
    subst out. cbn [map]. rewrite E.
    destruct (map (join [NL]) pars'); simpl; eauto. }
  assert (Hend : exists s c, out = s ++ [c] /\ is_space c = false).
  { destruct (last (re_split_blank text)) as [p|] eqn:Hp; [|done].
    simpl in Hlast.
    destruct (Forall2_last_rel _ _ _ _ HR Hp) as (ls & Hls & _ & _ & Hl).
    destruct (last_group_line (groups_of width p)) as (x & Hx & Hxend).
    { apply break_lines_nonempty. }
    { by apply groups_of_proper. }
    rewrite Hx in Hl.
    apply (join_ends [NL; NL] (map (join [NL]) pars) (join [NL] ls)).
    - clear -Hls. induction pars as [|a [|b r] IH]; [done| |].
      + by injection Hls as ->.
      + by apply IH.
    - by apply (join_ends [NL] ls x). }
  destruct Hhead as (c & x & Ehead & Hc). destruct Hend as (s & c' & Eend & Hc').
  exists out, (re_sub_line_starts (repeat_char SP indent) out), g'.
  split; [done|]. split.
  - unfold IndentParagraphs. rewrite Hrun, bind_Done. cbn beta iota zeta.
    do 2 f_equal. rewrite Eend.
    rewrite re_sub_line_starts_snoc by (by apply not_space_not_nl).
    by apply rstrip_ws_solid.
  - rewrite Ehead. apply split_nl_indented; [apply spaces_no_nl|done].
Qed.

End Indent.

Lemma IndentParagraphs_keeps_words_witness :
  (forall g l, (rev_shuffle g l).1 ≡ₚ l)
  /\ exists ret g',
       IndentParagraphs unit rev_shuffle
         (text_of ["  to be  or"; "not"; ""; ""; " to be"; ""; ""]) 6 2 true tt
       = Done (ret, g')
       /\ split_ws ret
          = [str_of "to"; str_of "be"; str_of "or"; str_of "not"; str_of "to";
             str_of "be"]
       /\ forall c, last ret = Some c -> is_space c = false.
Proof.
  split; [exact rev_shuffle_perm|].
  exact (IndentParagraphs_keeps_words rev_shuffle rev_shuffle_perm
           (text_of ["  to be  or"; "not"; ""; ""; " to be"; ""; ""]) 6 2 true tt).
Defined.

Lemma IndentParagraphs_lines_witness :
  (forall g l, (rev_shuffle g l).1 ≡ₚ l)
  /\ exists out ret g',
       FillParagraphs unit rev_shuffle
         (text_of ["to be  or"; "not"; ""; ""; " to be"]) 6 true tt = Done (out, g')
       /\ IndentParagraphs unit rev_shuffle
            (text_of ["to be  or"; "not"; ""; ""; " to be"]) 6 2 true tt
          = Done (ret, g')
       /\ split_nl ret = map (app (repeat_char SP 2)) (split_nl out).
Proof.
  split; [exact rev_shuffle_perm|].
  apply (IndentParagraphs_lines rev_shuffle rev_shuffle_perm); reflexivity.
Defined.

(** ** The paragraphs of the output, one for each of the text *)

Section Paragraphs_kept.

Context {G : Type} (shuffle : G -> list nat -> list nat * G).
Hypothesis shuffle_perm : forall g l, (shuffle g l).1 ≡ₚ l.

(** The lines of every paragraph, as the loop leaves them in
    [paragraphs], and what they are for the paragraph they come from. *)
Lemma fill_lines_filled text width justify (g : G) :
  exists lss g',
    fill_lines G shuffle text width justify g = Done (lss, g')
    /\ FillParagraphs G shuffle text width justify g
       = Done (join [NL; NL] (map (join [NL]) lss), g')
    /\ Forall2 (fun p ls => lines_match p ls
                            /\ map split_ws ls = groups_of width p)
               (re_split_blank text) lss.
Proof.
  destruct justify.
  - destruct (fill_lines_justified shuffle shuffle_perm text width g)
      as (lss & g' & Hlines & Hrun & Hj).
    exists lss, g'. split_and!; [done..|]. eapply Forall2_impl; [done|].
    intros p ls Hp. simpl in Hp. split.
    + by eapply justified_lines_match.
    + exact (justified_lines_words width _ _
               (break_lines_words width (words_of p) [] (words_of_words p)) Hp).
  - exists (map (fun p => map (join [SP]) (groups_of width p)) (re_split_blank text)), g.
    assert (Hlines : fill_lines G shuffle text width false g
                     = Done (map (fun p => map (join [SP]) (groups_of width p))
                                 (re_split_blank text), g)).
    { unfold fill_lines. by rewrite fill_each_plain. }
    split_and!; [done| |].
    + unfold FillParagraphs. by rewrite Hlines.
    + clear Hlines.
      induction (re_split_blank text) as [|p ps IH]; constructor; [|done].
      split; [apply plain_lines_match|].
      exact (plain_lines_words _
               (break_lines_words width (words_of p) [] (words_of_words p))).
Qed.

(** C7, as the code has it: the loop leaves in [paragraphs] one entry for
    each paragraph of the text, in the order of the text, and the output
    is these entries joined by two newlines, whatever the separators
    were. The entry of a paragraph without a word is the empty string (one
    empty line); the entry of any other paragraph is its lines joined by
    single newlines, none of them empty or holding a newline, and the
    words of these lines are the words of that paragraph in the groups of
    the greedy loop. Splitting the output gives these entries back,
    their number kept and two newlines between neighbours, exactly when
    no paragraph strictly between the first and the last of the text is
    blank. *)
Theorem FillParagraphs_paragraphs (text : str) (width : Z) (justify : bool) (g : G) :
  exists lss g',
    fill_lines G shuffle text width justify g = Done (lss, g')
    /\ FillParagraphs G shuffle text width justify g
       = Done (join [NL; NL] (map (join [NL]) lss), g')
    /\ length lss = length (re_split_blank text)
    /\ Forall2 (fun p ls =>
                  lines_match p ls
                  /\ map split_ws ls = groups_of width p
                  /\ (is_blank p = true -> join [NL] ls = []))
               (re_split_blank text) lss
    /\ (re_split_blank (join [NL; NL] (map (join [NL]) lss)) = map (join [NL]) lss
        <-> existsb is_blank (interior (re_split_blank text)) = false).
Proof.
  destruct (fill_lines_filled text width justify g) as (lss & g' & Hlines & Hrun & HR).
  assert (Hm : Forall2 lines_match (re_split_blank text) lss).
  { eapply Forall2_impl; [done|]. by intros p ls [? _]. }
  exists lss, g'. do 2 (split; [done|]). split; [|split].
  - symmetry. by eapply Forall2_length.
  - eapply Forall2_impl; [exact HR|]. intros p ls Hp. simpl in Hp.
    destruct Hp as [Hl Hw]. split_and!; [done..|].
    intros Hb. unfold lines_match in Hl. rewrite Hb in Hl. by subst ls.
  - pose proof (re_split_from_nonempty text [] false) as Hne.
    fold (re_split_blank text) in Hne.
    assert (Hok : Forall par_lines_ok lss).
    { clear -Hm. induction Hm; constructor; [by eapply lines_match_ok|done]. }
    pose proof (Forall2_interior _ _ _ Hm) as Hin.
    rewrite (blank_iff_no_line _ _ Hin).
    destruct Hm as [|p l0 ps lss' _ _]; [done|].
    rewrite re_split_filled_squeezed by done.
    unfold interior. cbn [tail]. split.
    + intros Eq. apply (f_equal length) in Eq. rewrite !length_map in Eq.
      destruct (decide (Forall (fun ls => ls <> [[]]) (removelast lss')))
        as [|Hn]; [done|].
      apply squeeze_shorter in Hn. simpl in Eq. lia.
    + intros H. by rewrite (squeeze_same lss' H).
Qed.

End Paragraphs_kept.

(** A text of three paragraphs, separated by two and by four newlines. *)
Lemma FillParagraphs_paragraphs_witness :
  (forall g l, (rev_shuffle g l).1 ≡ₚ l)
  /\ exists lss g',
       fill_lines unit rev_shuffle
         (text_of ["one two"; ""; "three"; ""; ""; ""; "four"]) 5 true tt
       = Done (lss, g')
       /\ FillParagraphs unit rev_shuffle
            (text_of ["one two"; ""; "three"; ""; ""; ""; "four"]) 5 true tt
          = Done (join [NL; NL] (map (join [NL]) lss), g')
       /\ length lss = 3%nat
       /\ re_split_blank (join [NL; NL] (map (join [NL]) lss)) = map (join [NL]) lss.
Proof.
  split; [exact rev_shuffle_perm|].
  destruct (FillParagraphs_paragraphs rev_shuffle rev_shuffle_perm
              (text_of ["one two"; ""; "three"; ""; ""; ""; "four"]) 5 true tt)
    as (lss & g' & Hlines & Hrun & Hlen & _ & Hsplit).
  exists lss, g'. split_and!; [done..|]. by apply Hsplit.
Defined.
